(** * xo-collection: the observable keyed store

    A shallow embedding of [packages/xo-collection/src/collection.js]: the
    [Collection] class, its mutation and query methods, the index registry
    and the event buffering protocol, followed by the properties the
    specification states about them.

    Conventions of the embedding.
    - A JavaScript object used as a dictionary ([_items], [_buffer],
      [_indexes], [_indexedItems], the payload of an event) is a finite map
      from own property names to values; a key is turned into a property
      name where the source indexes the object with it, and a loop over
      the object ([forEach], [for ... in]) visits each own name once.
    - A method is a computation in a state-and-exception monad over the
      state of the collection; an exception carries the state it was thrown
      in, so that "thrown before any change" is a statement and not a
      convention.
    - What the object does to its environment is recorded in the state as
      well: the [called] variable of every closure [bufferEvents] returned,
      the [process.nextTick] queue, the events passed to [emit] and the
      calls made into index objects.  Listeners and index hooks are not run:
      the model covers callers that do not re-enter the collection from
      them. *)

From stdpp Require Import gmap strings list fin_maps pretty.

(* ================================================================= *)
(** ** Values *)

(** A JavaScript number as the collection sees it, through [typeof] and
    through its conversion to a property name: an integral value, or any
    other number (a fraction, [NaN], an infinity) carried by the text
    [Number::toString] gives it, as in [NNonInt "1.5"]. *)
Inductive number : Type :=
  | NInt (z : Z)
  | NNonInt (text : string).

(** The values handled here: primitives and objects.  An object is a
    reference together with what reading its [id] property gives
    ([VUndefined] when it has none).  Functions, symbols and big integers
    are left out; the collection treats them as it treats booleans, which
    are no keys and cannot be touched. *)
Inductive value : Type :=
  | VUndefined
  | VNull
  | VBool (b : bool)
  | VNum (n : number)
  | VStr (s : string)
  | VObject (ref : positive) (id : value).

#[global] Instance number_eq_dec : EqDecision number.
Proof. solve_decision. Defined.

#[global] Instance value_eq_dec : EqDecision value.
Proof. solve_decision. Defined.

Definition typeof (v : value) : string :=
  match v with
  | VUndefined => "undefined"
  | VNull => "object"
  | VBool _ => "boolean"
  | VNum _ => "number"
  | VStr _ => "string"
  | VObject _ _ => "object"
  end.

(** [ToBoolean]. *)
Definition truthy (v : value) : bool :=
  match v with
  | VUndefined | VNull => false
  | VBool b => b
  | VNum (NInt z) => negb (Z.eqb z 0)
  | VNum (NNonInt text) => negb (String.eqb text "NaN")
  | VStr s => negb (String.eqb s "")
  | VObject _ _ => true
  end.

(** [v.id], for a [v] that is neither [undefined] nor [null]. *)
Definition get_id (v : value) : value :=
  match v with
  | VObject _ id => id
  | _ => VUndefined
  end.

(** [v !== undefined]. *)
Definition is_defined (v : value) : bool :=
  match v with
  | VUndefined => false
  | _ => true
  end.

(** [ToPropertyKey]: the property name [object[v]] reads or writes. *)
Definition to_property_key (v : value) : string :=
  match v with
  | VUndefined => "undefined"
  | VNull => "null"
  | VBool true => "true"
  | VBool false => "false"
  | VNum (NInt z) => pretty z
  | VNum (NNonInt text) => text
  | VStr s => s
  | VObject _ _ => "[object Object]"
  end.

(** [Number.isInteger]: what the specification calls an integer. *)
Definition is_integer (v : value) : bool :=
  match v with
  | VNum (NInt _) => true
  | _ => false
  end.

Definition is_string (v : value) : bool :=
  match v with
  | VStr _ => true
  | _ => false
  end.

(* ================================================================= *)
(** ** Errors, actions, events, indexes *)

Inductive error : Type :=
  | BufferAlreadyFlushed
  | DuplicateIndex (name : string)
  | DuplicateItem (key : value)
  | IllegalTouch (v : value)
  | InvalidKey (key : value)
  | NoSuchIndex (name : string)
  | NoSuchItem (key : value).

(** The three strings ['add'], ['remove'] and ['update'] that [_touch]
    receives and [_buffer] stores. *)
Inductive action : Type :=
  | Add
  | Remove
  | Update.

#[global] Instance action_eq_dec : EqDecision action.
Proof. solve_decision. Defined.

Definition action_name (a : action) : string :=
  match a with
  | Add => "add"
  | Remove => "remove"
  | Update => "update"
  end.

(** One call of [this.emit]: the event name and, when there is one, the
    object passed with it. *)
Inductive event : Type :=
  | Emit (name : string) (payload : option (gmap string value)).

(** An index object, external to the collection: its identity and its
    [items] property. *)
Record index : Type := Index {
  index_ref : positive;
  index_items : value
}.

(** The calls the collection makes into an index. *)
Inductive index_call : Type :=
  | AttachCollection (i : index)
  | DetachCollection (i : index).

(* ================================================================= *)
(** ** State *)

Record collection : Type := Collection {
  (* the fields the constructor sets *)
  _buffer : gmap string action;
  _buffering : Z;
  _indexes : gmap string index;
  _indexedItems : gmap string value;
  _items : gmap string value;
  _size : Z;
  (* the environment *)
  flush_called : list bool;      (* [called], one per closure, by creation order *)
  next_tick : list nat;          (* closures handed to [process.nextTick] *)
  emitted : list event;          (* calls of [emit], oldest first *)
  index_calls : list index_call  (* calls into indexes, oldest first *)
}.

(** [new Collection()]. *)
Definition constructor : collection :=
  {| _buffer := ∅; _buffering := 0; _indexes := ∅; _indexedItems := ∅;
     _items := ∅; _size := 0;
     flush_called := []; next_tick := []; emitted := []; index_calls := [] |}.

Definition set_buffer (f : gmap string action → gmap string action) (c : collection) : collection :=
  {| _buffer := f (_buffer c); _buffering := _buffering c; _indexes := _indexes c;
     _indexedItems := _indexedItems c; _items := _items c; _size := _size c;
     flush_called := flush_called c; next_tick := next_tick c;
     emitted := emitted c; index_calls := index_calls c |}.

Definition set_buffering (f : Z → Z) (c : collection) : collection :=
  {| _buffer := _buffer c; _buffering := f (_buffering c); _indexes := _indexes c;
     _indexedItems := _indexedItems c; _items := _items c; _size := _size c;
     flush_called := flush_called c; next_tick := next_tick c;
     emitted := emitted c; index_calls := index_calls c |}.

Definition set_indexes (f : gmap string index → gmap string index) (c : collection) : collection :=
  {| _buffer := _buffer c; _buffering := _buffering c; _indexes := f (_indexes c);
     _indexedItems := _indexedItems c; _items := _items c; _size := _size c;
     flush_called := flush_called c; next_tick := next_tick c;
     emitted := emitted c; index_calls := index_calls c |}.

Definition set_indexedItems (f : gmap string value → gmap string value) (c : collection) : collection :=
  {| _buffer := _buffer c; _buffering := _buffering c; _indexes := _indexes c;
     _indexedItems := f (_indexedItems c); _items := _items c; _size := _size c;
     flush_called := flush_called c; next_tick := next_tick c;
     emitted := emitted c; index_calls := index_calls c |}.

Definition set_items (f : gmap string value → gmap string value) (c : collection) : collection :=
  {| _buffer := _buffer c; _buffering := _buffering c; _indexes := _indexes c;
     _indexedItems := _indexedItems c; _items := f (_items c); _size := _size c;
     flush_called := flush_called c; next_tick := next_tick c;
     emitted := emitted c; index_calls := index_calls c |}.

Definition set_size (f : Z → Z) (c : collection) : collection :=
  {| _buffer := _buffer c; _buffering := _buffering c; _indexes := _indexes c;
     _indexedItems := _indexedItems c; _items := _items c; _size := f (_size c);
     flush_called := flush_called c; next_tick := next_tick c;
     emitted := emitted c; index_calls := index_calls c |}.

Definition set_flush_called (f : list bool → list bool) (c : collection) : collection :=
  {| _buffer := _buffer c; _buffering := _buffering c; _indexes := _indexes c;
     _indexedItems := _indexedItems c; _items := _items c; _size := _size c;
     flush_called := f (flush_called c); next_tick := next_tick c;
     emitted := emitted c; index_calls := index_calls c |}.

Definition set_next_tick (f : list nat → list nat) (c : collection) : collection :=
  {| _buffer := _buffer c; _buffering := _buffering c; _indexes := _indexes c;
     _indexedItems := _indexedItems c; _items := _items c; _size := _size c;
     flush_called := flush_called c; next_tick := f (next_tick c);
     emitted := emitted c; index_calls := index_calls c |}.

Definition set_emitted (f : list event → list event) (c : collection) : collection :=
  {| _buffer := _buffer c; _buffering := _buffering c; _indexes := _indexes c;
     _indexedItems := _indexedItems c; _items := _items c; _size := _size c;
     flush_called := flush_called c; next_tick := next_tick c;
     emitted := f (emitted c); index_calls := index_calls c |}.

Definition set_index_calls (f : list index_call → list index_call) (c : collection) : collection :=
  {| _buffer := _buffer c; _buffering := _buffering c; _indexes := _indexes c;
     _indexedItems := _indexedItems c; _items := _items c; _size := _size c;
     flush_called := flush_called c; next_tick := next_tick c;
     emitted := emitted c; index_calls := f (index_calls c) |}.

(* ================================================================= *)
(** ** The monad of methods *)

Inductive completion (A : Type) : Type :=
  | Normal (a : A)
  | Throw (e : error).
Arguments Normal {A} a.
Arguments Throw {A} e.

Definition M (A : Type) : Type := collection → completion A * collection.

Definition ret {A} (a : A) : M A := λ c, (Normal a, c).

Definition throw {A} (e : error) : M A := λ c, (Throw e, c).

Definition bind {A B} (m : M A) (k : A → M B) : M B :=
  λ c, match m c with
       | (Normal a, c') => k a c'
       | (Throw e, c') => (Throw e, c')
       end.

Definition gets {A} (f : collection → A) : M A := λ c, (Normal (f c), c).

Definition modify (f : collection → collection) : M unit := λ c, (Normal tt, f c).

Declare Scope js_scope.
Delimit Scope js_scope with js.
Notation "'let*' x ':=' m 'in' k" := (bind m (λ x, k))
  (at level 10, x pattern, m at level 100, k at level 200) : js_scope.
Notation "m '>>' k" := (bind m (λ _, k))
  (at level 100, k at level 200, right associativity) : js_scope.
Open Scope js_scope.

(** [if (cond) { body }] *)
Definition when (cond : bool) (body : M unit) : M unit :=
  if cond then body else ret tt.

(** A loop over a list fixed before it starts. *)
Fixpoint for_each {A} (l : list A) (body : A → M unit) : M unit :=
  match l with
  | [] => ret tt
  | x :: l' => body x >> for_each l' body
  end.

(* ================================================================= *)
(** ** Helpers of the class *)

(** [hasOwnProperty.call(object, name)] *)
Definition hasOwnProperty {A} (object : gmap string A) (name : string) : bool :=
  match object !! name with
  | Some _ => true
  | None => false
  end.

(** [object[name]], [undefined] for a missing property. *)
Definition read (object : gmap string value) (name : string) : value :=
  default VUndefined (object !! name).

(** Modelled from the spec: [isEmpty] is imported from [./is-empty], which
    is not among the sources; the flush "emits nothing" on an empty pending
    log and emits "one event per non-empty set", so [isEmpty] holds of the
    objects without a key. *)
Definition isEmpty {A} (object : gmap string A) : bool :=
  bool_decide (size object = 0).

(** [getKey]: the default implementation, [value && value.id]. *)
Definition getKey (v : value) : value :=
  if truthy v then get_id v else v.

Definition has (key : value) : M bool :=
  gets (λ c, hasOwnProperty (_items c) (to_property_key key)).

Definition _assertHas (key : value) : M unit :=
  let* found := has key in
  if negb found then throw (NoSuchItem key) else ret tt.

Definition _assertHasNot (key : value) : M unit :=
  let* found := has key in
  if found then throw (DuplicateItem key) else ret tt.

Definition _isValidKey (key : value) : bool :=
  String.eqb (typeof key) "number" || String.eqb (typeof key) "string".

Definition _assertValidKey (key : value) : M unit :=
  if negb (_isValidKey key) then throw (InvalidKey key) else ret tt.

(** [_resolveItem] returns an array of one or two elements, which every
    caller destructures into [key] and [value]: the pair below, with
    [VUndefined] for the element a one-element array lacks.  An omitted
    [valueIfKey] is [VUndefined] (the parameter's default). *)
Definition _resolveItem (keyOrObjectWithId valueIfKey : value) : M (value * value) :=
  if is_defined valueIfKey then
    _assertValidKey keyOrObjectWithId >>
    ret (keyOrObjectWithId, valueIfKey)
  else if _isValidKey keyOrObjectWithId then
    ret (keyOrObjectWithId, VUndefined)
  else
    let key := getKey keyOrObjectWithId in
    _assertValidKey key >>
    ret (key, keyOrObjectWithId).

(* ================================================================= *)
(** ** Events buffering *)

Definition emit (name : string) (payload : option (gmap string value)) : M unit :=
  modify (set_emitted (λ l, l ++ [Emit name payload])).

(** [data[a]] once the [for (key in this._buffer)] loop of the flush has
    run: the keys logged with action [a], each with [this._items[key]]. *)
Definition data (a : action) (buffer : gmap string action) (items : gmap string value) : gmap string value :=
  map_imap (λ key a', if decide (a' = a) then Some (read items key) else None) buffer.

(** [bufferEvents] returns a closure; here, the position of its [called]
    variable in [flush_called].  [flush h] is a call of that closure. *)
Definition bufferEvents : M nat :=
  modify (set_buffering Z.succ) >>
  let* h := gets (λ c, length (flush_called c)) in
  modify (set_flush_called (λ l, l ++ [false])) >>
  ret h.

Definition flush (h : nat) : M unit :=
  let* called := gets (λ c, flush_called c !! h) in
  match called with
  | None => ret tt (* no closure was created at [h]: there is nothing to call *)
  | Some true => throw BufferAlreadyFlushed
  | Some false =>
      modify (set_flush_called (<[h := true]>)) >>
      modify (set_buffering Z.pred) >>
      let* buffering := gets _buffering in
      if negb (Z.eqb buffering 0) then ret tt else
      let* buffer := gets _buffer in
      if isEmpty buffer then ret tt else
      let* items := gets _items in
      for_each [Add; Remove; Update] (λ a,
        let items_a := data a buffer items in
        when (negb (isEmpty items_a)) (emit (action_name a) (Some items_a))) >>
      emit "finish" None >>
      modify (set_buffer (λ _, ∅))
  end.

(** [process.nextTick(flush)] *)
Definition nextTick (h : nat) : M unit :=
  modify (set_next_tick (λ q, q ++ [h])).

(** The runtime reaching the end of the current turn: the oldest callback
    of the [nextTick] queue is called. *)
Definition tick : M unit :=
  let* queue := gets next_tick in
  match queue with
  | [] => ret tt
  | h :: queue' => modify (set_next_tick (λ _, queue')) >> flush h
  end.

Definition _touch (a : action) (key : value) : M unit :=
  let* buffering := gets _buffering in
  when (Z.eqb buffering 0) (let* flush := bufferEvents in nextTick flush) >>
  let name := to_property_key key in
  match a with
  | Add =>
      modify (set_buffer (λ buffer,
        <[name := if buffer !! name is Some _ then Update else Add]> buffer))
  | Remove =>
      modify (set_buffer (λ buffer,
        if buffer !! name is Some Add then delete name buffer
        else <[name := Remove]> buffer))
  | Update =>
      modify (set_buffer (λ buffer,
        if buffer !! name is Some _ then buffer
        else <[name := Update]> buffer))
  end.

(* ================================================================= *)
(** ** Manipulation *)

Definition add (keyOrObjectWithId valueIfKey : value) : M unit :=
  let* (key, value) := _resolveItem keyOrObjectWithId valueIfKey in
  _assertHasNot key >>
  modify (set_items (<[to_property_key key := value]>)) >>
  modify (set_size Z.succ) >>
  _touch Add key.

(** [forEach] visits the keys the object has when the loop starts. *)
Definition clear : M unit :=
  let* keys := gets (λ c, (map_to_list (_items c)).*1) in
  for_each keys (λ key,
    modify (set_items (delete key)) >>
    modify (set_size Z.pred) >>
    _touch Remove (VStr key)).

Definition remove (keyOrObjectWithId : value) : M unit :=
  let* (key, _) := _resolveItem keyOrObjectWithId VUndefined in
  _assertHas key >>
  modify (set_items (delete (to_property_key key))) >>
  modify (set_size Z.pred) >>
  _touch Remove key.

Definition set (keyOrObjectWithId valueIfKey : value) : M unit :=
  let* (key, value) := _resolveItem keyOrObjectWithId valueIfKey in
  let* found := has key in
  let action := if found then Update else Add in
  modify (set_items (<[to_property_key key := value]>)) >>
  when (bool_decide (action = Add)) (modify (set_size Z.succ)) >>
  _touch action key.

Definition get (key : value) (defaultValue : option value) : M value :=
  let* found := has key in
  if found then gets (λ c, read (_items c) (to_property_key key)) else
  match defaultValue with
  | Some d => ret d (* [arguments.length > 1] *)
  | None => _assertHas key >> ret VUndefined
  end.

Definition touch (keyOrObjectWithId : value) : M value :=
  let* (key, _) := _resolveItem keyOrObjectWithId VUndefined in
  _assertHas key >>
  let* value := get key None in
  if negb (String.eqb (typeof value) "object") || bool_decide (value = VNull)
  then throw (IllegalTouch value) else
  _touch Update key >>
  get key None.

Definition unset (keyOrObjectWithId : value) : M unit :=
  let* (key, _) := _resolveItem keyOrObjectWithId VUndefined in
  let* found := has key in
  when found (
    modify (set_items (delete (to_property_key key))) >>
    modify (set_size Z.pred) >>
    _touch Remove key).

Definition update (keyOrObjectWithId valueIfKey : value) : M unit :=
  let* (key, value) := _resolveItem keyOrObjectWithId valueIfKey in
  _assertHas key >>
  modify (set_items (<[to_property_key key := value]>)) >>
  _touch Update key.

(* ================================================================= *)
(** ** Indexes *)

Definition createIndex (name : string) (i : index) : M unit :=
  let* indexes := gets _indexes in
  if hasOwnProperty indexes name then throw (DuplicateIndex name) else
  modify (set_indexes (<[name := i]>)) >>
  modify (set_indexedItems (<[name := index_items i]>)) >>
  modify (set_index_calls (λ l, l ++ [AttachCollection i])).

Definition deleteIndex (name : string) : M unit :=
  let* indexes := gets _indexes in
  match indexes !! name with
  | None => throw (NoSuchIndex name)
  | Some i =>
      modify (set_indexes (delete name)) >>
      modify (set_indexedItems (delete name)) >>
      modify (set_index_calls (λ l, l ++ [DetachCollection i]))
  end.

(* ================================================================= *)
(** ** Callers *)

(** One call from outside: a method of the collection, a call of a closure
    [bufferEvents] returned, or the runtime ending the current turn. *)
Inductive call : Type :=
  | CallAdd (keyOrObjectWithId valueIfKey : value)
  | CallClear
  | CallRemove (keyOrObjectWithId : value)
  | CallSet (keyOrObjectWithId valueIfKey : value)
  | CallTouch (keyOrObjectWithId : value)
  | CallUnset (keyOrObjectWithId : value)
  | CallUpdate (keyOrObjectWithId valueIfKey : value)
  | CallGet (key : value) (defaultValue : option value)
  | CallHas (key : value)
  | CallCreateIndex (name : string) (i : index)
  | CallDeleteIndex (name : string)
  | CallBufferEvents
  | CallFlush (h : nat)
  | CallTick.

Definition ignore {A} (m : M A) : M unit :=
  let* _ := m in ret tt.

Definition exec (x : call) : M unit :=
  match x with
  | CallAdd a b => add a b
  | CallClear => clear
  | CallRemove a => remove a
  | CallSet a b => set a b
  | CallTouch a => ignore (touch a)
  | CallUnset a => unset a
  | CallUpdate a b => update a b
  | CallGet key d => ignore (get key d)
  | CallHas key => ignore (has key)
  | CallCreateIndex name i => createIndex name i
  | CallDeleteIndex name => deleteIndex name
  | CallBufferEvents => ignore bufferEvents
  | CallFlush h => flush h
  | CallTick => tick
  end.

(** The state a call leaves, whether it returns or throws (the caller may
    catch the exception and go on). *)
Definition step (x : call) (c : collection) : collection := (exec x c).2.

Definition run (l : list call) (c : collection) : collection :=
  foldl (λ c x, step x c) c l.

(** The mutation operations that take a key, with their arguments. *)
Definition mutation_args (x : call) : option (value * value) :=
  match x with
  | CallAdd a b | CallSet a b | CallUpdate a b => Some (a, b)
  | CallRemove a | CallTouch a | CallUnset a => Some (a, VUndefined)
  | _ => None
  end.

(** The key [_resolveItem] settles on: the one it returns, or the one it
    rejects. *)
Definition resolved_key (keyOrObjectWithId valueIfKey : value) : value :=
  if is_defined valueIfKey then keyOrObjectWithId
  else if _isValidKey keyOrObjectWithId then keyOrObjectWithId
  else getKey keyOrObjectWithId.

Definition resolved_value (keyOrObjectWithId valueIfKey : value) : value :=
  if is_defined valueIfKey then valueIfKey
  else if _isValidKey keyOrObjectWithId then VUndefined
  else keyOrObjectWithId.

(* ================================================================= *)
(** ** Notions used in the statements and the proofs *)

(** What [_touch] does before it logs: with no scope open, it opens one and
    hands its closure to [process.nextTick]. *)
Definition schedule (c : collection) : collection :=
  if Z.eqb (_buffering c) 0 then
    set_next_tick (λ q, q ++ [length (flush_called c)])
      (set_flush_called (λ l, l ++ [false]) (set_buffering Z.succ c))
  else c.

(** What [_touch] does to [_buffer]. *)
Definition log (a : action) (name : string) (buffer : gmap string action) : gmap string action :=
  match a with
  | Add => <[name := if buffer !! name is Some _ then Update else Add]> buffer
  | Remove => if buffer !! name is Some Add then delete name buffer else <[name := Remove]> buffer
  | Update => if buffer !! name is Some _ then buffer else <[name := Update]> buffer
  end.

(** The event of a flush for the keys logged with action [a], if any. *)
Definition batch_of (a : action) (buffer : gmap string action) (items : gmap string value) : list event :=
  if isEmpty (data a buffer items) then []
  else [Emit (action_name a) (Some (data a buffer items))].

(** All the events of a flush that finds a non-empty [buffer]. *)
Definition batch (buffer : gmap string action) (items : gmap string value) : list event :=
  batch_of Add buffer items ++ batch_of Remove buffer items ++
  batch_of Update buffer items ++ [Emit "finish" None].

(** A call of a closure that was not called before: [called = true] and
    [--this._buffering]. *)
Definition close (h : nat) (c : collection) : collection :=
  set_buffering Z.pred (set_flush_called (<[h := true]>) c).

(** One round of the loop of [clear]. *)
Definition clear_key (key : string) (c : collection) : collection :=
  set_buffer (log Remove key) (schedule (set_size Z.pred (set_items (delete key) c))).

(** The loop of [clear] over [keys]. *)
Definition clear_keys (keys : list string) (c : collection) : collection :=
  foldl (λ c' key, clear_key key c') c keys.

(** The closures that were not called yet. *)
Fixpoint uncalled (l : list bool) : nat :=
  match l with
  | [] => 0
  | called :: l' => (if called then 0 else 1) + uncalled l'
  end.

(** What [_buffer] may say of a property name, given [_items]. *)
Definition consistent (entry : option action) (item : option value) : Prop :=
  match entry with
  | Some Remove => item = None
  | Some _ => is_Some item
  | None => True
  end.

(** The invariant of the states reachable from a new collection: [_size]
    counts the items, [_buffering] counts the closures still to be called,
    nothing is logged while no scope is open, and the log agrees with the
    items. *)
Record wf (c : collection) : Prop := Wf {
  wf_size : _size c = Z.of_nat (size (_items c));
  wf_buffering : _buffering c = Z.of_nat (uncalled (flush_called c));
  wf_idle : _buffering c = 0%Z → _buffer c = ∅;
  wf_logged : ∀ name, consistent (_buffer c !! name) (_items c !! name)
}.




(** From [c] to [c'], the closures of [c] are kept, and those that were
    called are still marked so. *)
Definition stays_called (c c' : collection) : Prop :=
  length (flush_called c) ≤ length (flush_called c') ∧
  ∀ h, flush_called c !! h = Some true → flush_called c' !! h = Some true.

(** The one event of a set of keys, when the set is not empty. *)
Definition event_of (name : string) (payload : gmap string value) : list event :=
  if isEmpty payload then [] else [Emit name (Some payload)].





(** The calls that open or close a scope. *)
Definition is_scope_call (x : call) : bool :=
  match x with
  | CallBufferEvents | CallFlush _ | CallTick => true
  | _ => false
  end.



(** [typeof v === 'number'] *)
Definition is_number (v : value) : bool :=
  match v with
  | VNum _ => true
  | _ => false
  end.


(** An index, for the examples. *)
Definition ex_index : index :=
  {| index_ref := 1; index_items := VObject 9 VUndefined |}.

(* ================================================================= *)
(** ** Iteration *)


Definition keys : M (list string) :=
  let* items := gets _items in
  ret (map_to_list items).*1.


(* ================================================================= *)
(** ** Notions used in the further properties *)

(** The calls that may run a flush. *)
Definition is_flush_call (x : call) : bool :=
  match x with
  | CallFlush _ | CallTick => true
  | _ => false
  end.



Definition is_attach (x : index_call) : bool :=
  match x with
  | AttachCollection _ => true
  | DetachCollection _ => false
  end.

(** [typeof v === 'object' && v !== null] *)
Definition is_object (v : value) : bool :=
  match v with
  | VObject _ _ => true
  | _ => false
  end.

(** What the calls of a turn other than [bufferEvents()] and the flushes do
    to the scopes: nothing, or, on a store with no scope open, open the one
    scope whose closure is handed to [process.nextTick]. *)
Definition turn (c c' : collection) : Prop :=
  (_buffering c' = _buffering c ∧ flush_called c' = flush_called c ∧
   next_tick c' = next_tick c) ∨
  (_buffering c = 0%Z ∧ _buffering c' = 1%Z ∧
   flush_called c' = flush_called c ++ [false] ∧
   next_tick c' = next_tick c ++ [length (flush_called c)]).

(* ================================================================= *)
(** ** The example of the specification *)

Definition ex_a1 : value := VObject 1 VUndefined.
Definition ex_b2 : value := VObject 2 VUndefined.
Definition ex_a9 : value := VObject 3 VUndefined.

Definition ex_first_turn : list call :=
  [CallAdd (VStr "a") ex_a1; CallAdd (VStr "b") ex_b2; CallTick].

Definition ex_second_turn : list call :=
  [CallUpdate (VStr "a") ex_a9; CallRemove (VStr "b"); CallTick].

Example ex_first_turn_events :
  emitted (run ex_first_turn constructor) =
  [Emit "add" (Some (<["a" := ex_a1]> {["b" := ex_b2]})); Emit "finish" None].
Proof. vm_compute. reflexivity. Qed.

Example ex_second_turn_events :
  drop 2 (emitted (run (ex_first_turn ++ ex_second_turn) constructor)) =
  [Emit "remove" (Some {["b" := VUndefined]});
   Emit "update" (Some {["a" := ex_a9]});
   Emit "finish" None].
Proof. vm_compute. reflexivity. Qed.

Example ex_final_size :
  _size (run (ex_first_turn ++ ex_second_turn) constructor) = 1%Z.
Proof. vm_compute. reflexivity. Qed.

(** The errors of section 7, one call each. *)
Example ex_invalid_key :
  (add VNull VUndefined constructor).1 = Throw (InvalidKey VNull) ∧
  (add (VObject 1 (VBool true)) VUndefined constructor).1 = Throw (InvalidKey (VBool true)) ∧
  (add (VObject 1 (VStr "a")) (VStr "x") constructor).1 =
    Throw (InvalidKey (VObject 1 (VStr "a"))).
Proof. by vm_compute. Qed.

Example ex_duplicate_item :
  (add (VStr "a") ex_a9 (run ex_first_turn constructor)).1 =
  Throw (DuplicateItem (VStr "a")).
Proof. by vm_compute. Qed.

Example ex_no_such_item :
  (update (VStr "c") ex_a9 (run ex_first_turn constructor)).1 =
    Throw (NoSuchItem (VStr "c")) ∧
  (remove (VStr "c") (run ex_first_turn constructor)).1 =
    Throw (NoSuchItem (VStr "c")) ∧
  (touch (VStr "c") (run ex_first_turn constructor)).1 =
    Throw (NoSuchItem (VStr "c")) ∧
  (get (VStr "c") None (run ex_first_turn constructor)).1 =
    Throw (NoSuchItem (VStr "c")).
Proof. by vm_compute. Qed.

Example ex_illegal_touch :
  (touch (VStr "n") (step (CallAdd (VStr "n") (VNum (NInt 3))) constructor)).1 =
    Throw (IllegalTouch (VNum (NInt 3))) ∧
  (touch (VStr "n") (step (CallAdd (VStr "n") VNull) constructor)).1 =
    Throw (IllegalTouch VNull) ∧
  (touch (VStr "a") (run ex_first_turn constructor)).1 = Normal ex_a1.
Proof. by vm_compute. Qed.

Example ex_index_errors :
  (createIndex "byId" ex_index (step (CallCreateIndex "byId" ex_index) constructor)).1 =
    Throw (DuplicateIndex "byId") ∧
  (deleteIndex "byId" constructor).1 = Throw (NoSuchIndex "byId").
Proof. by vm_compute. Qed.

Example ex_buffer_already_flushed :
  (flush 0 (run [CallBufferEvents; CallFlush 0] constructor)).1 =
  Throw BufferAlreadyFlushed.
Proof. by vm_compute. Qed.

(** An object is keyed by its [id]; the numbers [1] and the string ['1']
    name the same property. *)
Example ex_keyed_object :
  _items (step (CallAdd (VObject 4 (VNum (NInt 1))) VUndefined) constructor) !! "1" =
    Some (VObject 4 (VNum (NInt 1))) ∧
  (add (VStr "1") ex_a1
     (step (CallAdd (VObject 4 (VNum (NInt 1))) VUndefined) constructor)).1 =
    Throw (DuplicateItem (VStr "1")).
Proof. by vm_compute. Qed.

(* ================================================================= *)
(** ** Equations of the methods *)

Ltac unfold_monad :=
  unfold ignore, when, bind, ret, throw, gets, modify in *.

Lemma resolveItem_eq a b c :
  _resolveItem a b c =
  if _isValidKey (resolved_key a b)
  then (Normal (resolved_key a b, resolved_value a b), c)
  else (Throw (InvalidKey (resolved_key a b)), c).
Proof.
  unfold _resolveItem, resolved_key, resolved_value, _assertValidKey.
  unfold_monad.
  destruct (is_defined b).
  - by destruct (_isValidKey a).
  - destruct (_isValidKey a) eqn:Ha; [by rewrite Ha|].
    by destruct (_isValidKey (getKey a)).
Qed.

Lemma touch_eq a key c :
  _touch a key c = (Normal tt, set_buffer (log a (to_property_key key)) (schedule c)).
Proof.
  unfold _touch, schedule, bufferEvents, nextTick. unfold_monad. simpl.
  destruct (Z.eqb (_buffering c) 0); by destruct a.
Qed.

Lemma bufferEvents_eq c :
  bufferEvents c =
  (Normal (length (flush_called c)),
   set_flush_called (λ l, l ++ [false]) (set_buffering Z.succ c)).
Proof. reflexivity. Qed.

Lemma add_eq a b c :
  add a b c =
  let key := resolved_key a b in
  let name := to_property_key key in
  if negb (_isValidKey key) then (Throw (InvalidKey key), c)
  else if hasOwnProperty (_items c) name then (Throw (DuplicateItem key), c)
  else (Normal tt,
        set_buffer (log Add name) (schedule
          (set_size Z.succ (set_items (<[name := resolved_value a b]>) c)))).
Proof.
  unfold add, bind at 1. rewrite resolveItem_eq. simpl.
  destruct (_isValidKey (resolved_key a b)); [|done]. simpl.
  unfold _assertHasNot, has. unfold_monad. simpl.
  destruct (hasOwnProperty _ _); [done|]. by rewrite touch_eq.
Qed.

Lemma remove_eq a c :
  remove a c =
  let key := resolved_key a VUndefined in
  let name := to_property_key key in
  if negb (_isValidKey key) then (Throw (InvalidKey key), c)
  else if negb (hasOwnProperty (_items c) name) then (Throw (NoSuchItem key), c)
  else (Normal tt,
        set_buffer (log Remove name) (schedule
          (set_size Z.pred (set_items (delete name) c)))).
Proof.
  unfold remove, bind at 1. rewrite resolveItem_eq. simpl.
  destruct (_isValidKey (resolved_key a VUndefined)); [|done]. simpl.
  unfold _assertHas, has. unfold_monad. simpl.
  destruct (hasOwnProperty _ _); simpl; [|done]. by rewrite touch_eq.
Qed.

Lemma set_eq a b c :
  set a b c =
  let key := resolved_key a b in
  let name := to_property_key key in
  if negb (_isValidKey key) then (Throw (InvalidKey key), c)
  else if hasOwnProperty (_items c) name
  then (Normal tt,
        set_buffer (log Update name) (schedule
          (set_items (<[name := resolved_value a b]>) c)))
  else (Normal tt,
        set_buffer (log Add name) (schedule
          (set_size Z.succ (set_items (<[name := resolved_value a b]>) c)))).
Proof.
  unfold set, bind at 1. rewrite resolveItem_eq. simpl.
  destruct (_isValidKey (resolved_key a b)); [|done]. simpl.
  unfold has. unfold_monad. simpl.
  destruct (hasOwnProperty _ _); simpl; by rewrite touch_eq.
Qed.

Lemma unset_eq a c :
  unset a c =
  let key := resolved_key a VUndefined in
  let name := to_property_key key in
  if negb (_isValidKey key) then (Throw (InvalidKey key), c)
  else if hasOwnProperty (_items c) name
  then (Normal tt,
        set_buffer (log Remove name) (schedule
          (set_size Z.pred (set_items (delete name) c))))
  else (Normal tt, c).
Proof.
  unfold unset, bind at 1. rewrite resolveItem_eq. simpl.
  destruct (_isValidKey (resolved_key a VUndefined)); [|done]. simpl.
  unfold has. unfold_monad. simpl.
  destruct (hasOwnProperty _ _); simpl; [by rewrite touch_eq|done].
Qed.

Lemma update_eq a b c :
  update a b c =
  let key := resolved_key a b in
  let name := to_property_key key in
  if negb (_isValidKey key) then (Throw (InvalidKey key), c)
  else if negb (hasOwnProperty (_items c) name) then (Throw (NoSuchItem key), c)
  else (Normal tt,
        set_buffer (log Update name) (schedule
          (set_items (<[name := resolved_value a b]>) c))).
Proof.
  unfold update, bind at 1. rewrite resolveItem_eq. simpl.
  destruct (_isValidKey (resolved_key a b)); [|done]. simpl.
  unfold _assertHas, has. unfold_monad. simpl.
  destruct (hasOwnProperty _ _); simpl; [|done]. by rewrite touch_eq.
Qed.

Lemma get_eq key d c :
  get key d c =
  match _items c !! to_property_key key, d with
  | Some v, _ => (Normal v, c)
  | None, Some v => (Normal v, c)
  | None, None => (Throw (NoSuchItem key), c)
  end.
Proof.
  unfold get, _assertHas, has, hasOwnProperty, read. unfold_monad. cbv beta.
  destruct (_items c !! to_property_key key) eqn:H; [by rewrite H|].
  destruct d; [done|]. by rewrite H.
Qed.

Lemma schedule_items c : _items (schedule c) = _items c.
Proof. unfold schedule. by destruct (Z.eqb _ _). Qed.

Lemma schedule_size c : _size (schedule c) = _size c.
Proof. unfold schedule. by destruct (Z.eqb _ _). Qed.

Lemma schedule_buffer c : _buffer (schedule c) = _buffer c.
Proof. unfold schedule. by destruct (Z.eqb _ _). Qed.




Lemma touch_method_eq a c :
  touch a c =
  let key := resolved_key a VUndefined in
  let name := to_property_key key in
  if negb (_isValidKey key) then (Throw (InvalidKey key), c)
  else match _items c !! name with
       | None => (Throw (NoSuchItem key), c)
       | Some (VObject ref id) =>
           (Normal (VObject ref id), set_buffer (log Update name) (schedule c))
       | Some v => (Throw (IllegalTouch v), c)
       end.
Proof.
  unfold touch, bind at 1. rewrite resolveItem_eq. cbv zeta.
  destruct (_isValidKey (resolved_key a VUndefined)); [|done]. cbv beta iota.
  unfold bind at 1. unfold _assertHas at 1, has, hasOwnProperty. unfold_monad.
  cbv beta.
  destruct (_items c !! _) as [v|] eqn:Hv; simpl; [|done].
  rewrite get_eq, Hv.
  destruct v; simpl; try done.
  rewrite touch_eq, get_eq. simpl. by rewrite schedule_items, Hv.
Qed.

Lemma set_emitted_app l1 l2 c :
  set_emitted (λ l, l ++ l2) (set_emitted (λ l, l ++ l1) c) =
  set_emitted (λ l, l ++ (l1 ++ l2)) c.
Proof. unfold set_emitted. simpl. f_equal. by rewrite app_assoc. Qed.

Lemma emit_batch_of a buffer items c :
  when (negb (isEmpty (data a buffer items)))
    (emit (action_name a) (Some (data a buffer items))) c =
  (Normal tt, set_emitted (λ l, l ++ batch_of a buffer items) c).
Proof.
  unfold batch_of, when. destruct (isEmpty _); [|done].
  unfold ret, set_emitted. destruct c. simpl. by rewrite app_nil_r.
Qed.

Lemma flush_eq h c :
  flush h c =
  match flush_called c !! h with
  | None => (Normal tt, c)
  | Some true => (Throw BufferAlreadyFlushed, c)
  | Some false =>
      if negb (Z.eqb (Z.pred (_buffering c)) 0) then (Normal tt, close h c)
      else if isEmpty (_buffer c) then (Normal tt, close h c)
      else (Normal tt,
            set_buffer (λ _, ∅)
              (set_emitted (λ l, l ++ batch (_buffer c) (_items c)) (close h c)))
  end.
Proof.
  unfold flush, bind at 1, gets at 1. cbv beta iota.
  destruct (flush_called c !! h) as [[]|]; [done| |done].
  unfold bind at 1, modify at 1. cbv beta iota.
  unfold bind at 1, modify at 1. cbv beta iota.
  unfold bind at 1, gets at 1. cbv beta iota.
  change (_buffering (set_buffering Z.pred (set_flush_called <[h:=true]> c)))
    with (Z.pred (_buffering c)).
  destruct (Z.eqb (Z.pred (_buffering c)) 0); [|done]. cbn [negb].
  unfold bind at 1, gets at 1. cbv beta iota.
  change (_buffer (set_buffering Z.pred (set_flush_called <[h:=true]> c)))
    with (_buffer c).
  destruct (isEmpty (_buffer c)); [done|].
  unfold bind at 1, gets at 1. cbv beta iota.
  change (_items (set_buffering Z.pred (set_flush_called <[h:=true]> c)))
    with (_items c).
  cbn [for_each]. cbv zeta.
  unfold bind at 1. unfold bind at 1. rewrite emit_batch_of.
  unfold bind at 1. rewrite emit_batch_of.
  unfold bind at 1. rewrite emit_batch_of.
  unfold ret, bind, emit, modify. cbv beta iota.
  by rewrite !set_emitted_app.
Qed.

Lemma tick_eq c :
  tick c =
  match next_tick c with
  | [] => (Normal tt, c)
  | h :: queue => flush h (set_next_tick (λ _, queue) c)
  end.
Proof. unfold tick. unfold_monad. by destruct (next_tick c). Qed.

Lemma for_each_total {A} (f : A → collection → collection) (body : A → M unit) l c :
  (∀ x c', body x c' = (Normal tt, f x c')) →
  for_each l body c = (Normal tt, foldl (λ c' x, f x c') c l).
Proof.
  intros Hbody. revert c. induction l as [|x l IH]; intros c; [done|].
  simpl. unfold bind. by rewrite Hbody, IH.
Qed.

Lemma clear_eq c :
  clear c = (Normal tt, clear_keys (map_to_list (_items c)).*1 c).
Proof.
  unfold clear, clear_keys, bind at 1, gets. cbv beta iota.
  apply for_each_total. intros key c'. unfold_monad. by rewrite touch_eq.
Qed.

Lemma createIndex_eq name i c :
  createIndex name i c =
  if hasOwnProperty (_indexes c) name then (Throw (DuplicateIndex name), c)
  else (Normal tt,
        set_index_calls (λ l, l ++ [AttachCollection i])
          (set_indexedItems (<[name := index_items i]>)
            (set_indexes (<[name := i]>) c))).
Proof.
  unfold createIndex. unfold_monad. cbv beta iota.
  by destruct (hasOwnProperty (_indexes c) name).
Qed.

Lemma deleteIndex_eq name c :
  deleteIndex name c =
  match _indexes c !! name with
  | None => (Throw (NoSuchIndex name), c)
  | Some i =>
      (Normal tt,
       set_index_calls (λ l, l ++ [DetachCollection i])
         (set_indexedItems (delete name) (set_indexes (delete name) c)))
  end.
Proof.
  unfold deleteIndex. unfold_monad. cbv beta iota.
  by destruct (_indexes c !! name).
Qed.

(** The state after a call, method by method. *)
Lemma step_add a b c :
  step (CallAdd a b) c =
  let name := to_property_key (resolved_key a b) in
  if _isValidKey (resolved_key a b) && negb (hasOwnProperty (_items c) name)
  then set_buffer (log Add name) (schedule
         (set_size Z.succ (set_items (<[name := resolved_value a b]>) c)))
  else c.
Proof.
  unfold step, exec. rewrite add_eq. cbv zeta.
  destruct (_isValidKey _); [|done]. by destruct (hasOwnProperty _ _).
Qed.

Lemma step_remove a c :
  step (CallRemove a) c =
  let name := to_property_key (resolved_key a VUndefined) in
  if _isValidKey (resolved_key a VUndefined) && hasOwnProperty (_items c) name
  then set_buffer (log Remove name) (schedule
         (set_size Z.pred (set_items (delete name) c)))
  else c.
Proof.
  unfold step, exec. rewrite remove_eq. cbv zeta.
  destruct (_isValidKey _); [|done]. by destruct (hasOwnProperty _ _).
Qed.

Lemma step_unset a c :
  step (CallUnset a) c = step (CallRemove a) c.
Proof.
  rewrite step_remove. unfold step, exec. rewrite unset_eq. cbv zeta.
  destruct (_isValidKey _); [|done]. by destruct (hasOwnProperty _ _).
Qed.

Lemma step_set a b c :
  step (CallSet a b) c =
  let name := to_property_key (resolved_key a b) in
  if negb (_isValidKey (resolved_key a b)) then c
  else if hasOwnProperty (_items c) name
  then set_buffer (log Update name) (schedule
         (set_items (<[name := resolved_value a b]>) c))
  else set_buffer (log Add name) (schedule
         (set_size Z.succ (set_items (<[name := resolved_value a b]>) c))).
Proof.
  unfold step, exec. rewrite set_eq. cbv zeta.
  destruct (_isValidKey _); [|done]. by destruct (hasOwnProperty _ _).
Qed.

Lemma step_update a b c :
  step (CallUpdate a b) c =
  let name := to_property_key (resolved_key a b) in
  if _isValidKey (resolved_key a b) && hasOwnProperty (_items c) name
  then set_buffer (log Update name) (schedule
         (set_items (<[name := resolved_value a b]>) c))
  else c.
Proof.
  unfold step, exec. rewrite update_eq. cbv zeta.
  destruct (_isValidKey _); [|done]. by destruct (hasOwnProperty _ _).
Qed.

Lemma step_touch a c :
  step (CallTouch a) c =
  let name := to_property_key (resolved_key a VUndefined) in
  if negb (_isValidKey (resolved_key a VUndefined)) then c
  else match _items c !! name with
       | Some (VObject _ _) => set_buffer (log Update name) (schedule c)
       | _ => c
       end.
Proof.
  unfold step, exec, ignore, bind. rewrite touch_method_eq. cbv zeta.
  destruct (_isValidKey _); [|done]. simpl.
  by destruct (_items c !! _) as [[]|].
Qed.

Lemma step_get key d c : step (CallGet key d) c = c.
Proof.
  unfold step, exec, ignore, bind. rewrite get_eq.
  by destruct (_items c !! _), d.
Qed.

Lemma step_has key c : step (CallHas key) c = c.
Proof. done. Qed.

Lemma step_clear c :
  step CallClear c = clear_keys (map_to_list (_items c)).*1 c.
Proof. unfold step, exec. by rewrite clear_eq. Qed.

Lemma step_bufferEvents c :
  step CallBufferEvents c =
  set_flush_called (λ l, l ++ [false]) (set_buffering Z.succ c).
Proof. done. Qed.

Lemma run_app l1 l2 c : run (l1 ++ l2) c = run l2 (run l1 c).
Proof. unfold run. apply foldl_app. Qed.

Lemma run_cons x l c : run (x :: l) c = run l (step x c).
Proof. done. Qed.

(* ================================================================= *)
(** ** Invariants of the reachable states *)

Lemma uncalled_snoc l : uncalled (l ++ [false]) = S (uncalled l).
Proof. induction l as [|[] l IH]; simpl; lia. Qed.

Lemma uncalled_insert l h :
  l !! h = Some false → uncalled l = S (uncalled (<[h := true]> l)).
Proof.
  revert h. induction l as [|called l IH]; intros [|h] Hh; simplify_eq/=; try done.
  rewrite (IH h Hh). destruct called; simpl; lia.
Qed.

Lemma log_lookup_ne a name name' buffer :
  name ≠ name' → log a name buffer !! name' = buffer !! name'.
Proof.
  intros Hne. destruct a; simpl.
  - by rewrite lookup_insert_ne.
  - destruct (buffer !! name) as [[]|];
      by rewrite ?lookup_delete_ne, ?lookup_insert_ne.
  - destruct (buffer !! name); by rewrite ?lookup_insert_ne.
Qed.

Lemma log_lookup_eq a name buffer :
  log a name buffer !! name =
  match a, buffer !! name with
  | Add, Some _ => Some Update
  | Add, None => Some Add
  | Remove, Some Add => None
  | Remove, _ => Some Remove
  | Update, Some a' => Some a'
  | Update, None => Some Update
  end.
Proof.
  destruct a; simpl.
  - rewrite lookup_insert_eq. by destruct (buffer !! name).
  - destruct (buffer !! name) as [[]|] eqn:H;
      by rewrite ?lookup_delete_eq, ?lookup_insert_eq.
  - destruct (buffer !! name) eqn:H; by rewrite ?lookup_insert_eq.
Qed.

Lemma hasOwnProperty_true {A} (object : gmap string A) name :
  hasOwnProperty object name = true ↔ is_Some (object !! name).
Proof.
  unfold hasOwnProperty. destruct (object !! name); split; try done.
Qed.

Lemma hasOwnProperty_false {A} (object : gmap string A) name :
  hasOwnProperty object name = false ↔ object !! name = None.
Proof. unfold hasOwnProperty. by destruct (object !! name). Qed.

Lemma isEmpty_true {A} (object : gmap string A) :
  isEmpty object = true ↔ object = ∅.
Proof.
  unfold isEmpty. rewrite bool_decide_eq_true. apply map_size_empty_iff.
Qed.

Lemma isEmpty_false {A} (object : gmap string A) :
  isEmpty object = false ↔ object ≠ ∅.
Proof.
  unfold isEmpty. rewrite bool_decide_eq_false. apply map_size_non_empty_iff.
Qed.

Lemma wf_constructor : wf constructor.
Proof. by split. Qed.

Lemma schedule_buffering c : _buffering (schedule c) ≠ 0%Z.
Proof.
  unfold schedule. destruct (Z.eqb_spec (_buffering c) 0) as [H|H]; simpl; lia.
Qed.

Lemma schedule_depth c :
  _buffering c = Z.of_nat (uncalled (flush_called c)) →
  _buffering (schedule c) = Z.of_nat (uncalled (flush_called (schedule c))).
Proof.
  unfold schedule. destruct (Z.eqb (_buffering c) 0); simpl; [|done].
  rewrite uncalled_snoc. lia.
Qed.

(** A mutation: [_items] and [_size] are changed, then [_touch] is called. *)
Lemma wf_mutation c (f : Z → Z) (g : gmap string value → gmap string value) a name :
  wf c →
  f (_size c) = Z.of_nat (size (g (_items c))) →
  (∀ name', consistent (log a name (_buffer c) !! name') (g (_items c) !! name')) →
  wf (set_buffer (log a name) (schedule (set_size f (set_items g c)))).
Proof.
  intros [Hsize Hdepth Hidle Hlogged] Hf Hg. split; simpl.
  - by rewrite schedule_size, schedule_items.
  - by apply schedule_depth.
  - intros H0. by apply schedule_buffering in H0.
  - intros name'. rewrite schedule_buffer, schedule_items. apply Hg.
Qed.

Lemma consistent_add c name v :
  wf c → _items c !! name = None →
  ∀ name', consistent (log Add name (_buffer c) !! name')
             (<[name := v]> (_items c) !! name').
Proof.
  intros Hwf Hnone name'. destruct (decide (name = name')) as [<-|Hne].
  - rewrite log_lookup_eq, lookup_insert_eq.
    destruct (_buffer c !! name); by eexists.
  - rewrite log_lookup_ne, lookup_insert_ne by done. apply Hwf.
Qed.

Lemma consistent_update c name v :
  wf c → is_Some (_items c !! name) →
  ∀ name', consistent (log Update name (_buffer c) !! name')
             (<[name := v]> (_items c) !! name').
Proof.
  intros Hwf Hsome name'. destruct (decide (name = name')) as [<-|Hne].
  - rewrite log_lookup_eq, lookup_insert_eq.
    pose proof (wf_logged c Hwf name) as Hc.
    destruct (_buffer c !! name) as [[]|]; simpl in *; try by eexists.
    rewrite Hc in Hsome. by destruct Hsome.
  - rewrite log_lookup_ne, lookup_insert_ne by done. apply Hwf.
Qed.

Lemma consistent_touch c name :
  wf c → is_Some (_items c !! name) →
  ∀ name', consistent (log Update name (_buffer c) !! name') (_items c !! name').
Proof.
  intros Hwf Hsome name'. destruct (decide (name = name')) as [<-|Hne].
  - rewrite log_lookup_eq.
    pose proof (wf_logged c Hwf name) as Hc.
    by destruct (_buffer c !! name) as [[]|].
  - rewrite log_lookup_ne by done. apply Hwf.
Qed.

Lemma consistent_remove c name :
  wf c →
  ∀ name', consistent (log Remove name (_buffer c) !! name')
             (delete name (_items c) !! name').
Proof.
  intros Hwf name'. destruct (decide (name = name')) as [<-|Hne].
  - rewrite log_lookup_eq, lookup_delete_eq.
    by destruct (_buffer c !! name) as [[]|].
  - rewrite log_lookup_ne, lookup_delete_ne by done. apply Hwf.
Qed.

Lemma size_insert_absent c name v :
  wf c → _items c !! name = None →
  Z.succ (_size c) = Z.of_nat (size (<[name := v]> (_items c))).
Proof. intros Hwf H. rewrite map_size_insert_None by done. rewrite (wf_size c Hwf). lia. Qed.

Lemma size_insert_present c name v :
  wf c → is_Some (_items c !! name) →
  _size c = Z.of_nat (size (<[name := v]> (_items c))).
Proof. intros Hwf H. rewrite map_size_insert_Some by done. apply Hwf. Qed.

Lemma size_delete_present c name :
  wf c → is_Some (_items c !! name) →
  Z.pred (_size c) = Z.of_nat (size (delete name (_items c))).
Proof.
  intros Hwf H. rewrite map_size_delete_Some by done. rewrite (wf_size c Hwf).
  assert (size (_items c) ≠ 0); [|lia].
  apply map_size_non_empty_iff. intros Hempty. rewrite Hempty in H.
  destruct H as [? H]. by rewrite lookup_empty in H.
Qed.

Lemma clear_key_items key c : _items (clear_key key c) = delete key (_items c).
Proof. unfold clear_key. simpl. by rewrite schedule_items. Qed.


Lemma wf_clear_key key c :
  wf c → is_Some (_items c !! key) → wf (clear_key key c).
Proof.
  intros Hwf Hkey. apply wf_mutation; [done| |].
  - by apply size_delete_present.
  - by apply consistent_remove.
Qed.

Lemma wf_clear_keys keys c :
  NoDup keys → (∀ key, key ∈ keys → is_Some (_items c !! key)) →
  wf c → wf (clear_keys keys c).
Proof.
  revert c. induction keys as [|key keys IH]; intros c Hnodup Hkeys Hwf; [done|].
  apply NoDup_cons in Hnodup as [Hkey Hnodup].
  apply (IH (clear_key key c)); [done| |].
  - intros key' Hkey'. rewrite clear_key_items, lookup_delete_ne.
    + apply Hkeys. by right.
    + intros ->. done.
  - apply wf_clear_key; [done|]. apply Hkeys. by left.
Qed.

Lemma keys_present (items : gmap string value) key :
  key ∈ (map_to_list items).*1 → is_Some (items !! key).
Proof.
  intros Hkey. apply list_elem_of_fmap in Hkey as [[key' v] [-> Hkey]].
  apply elem_of_map_to_list in Hkey. by eexists.
Qed.


Lemma wf_clear c : wf c → wf (step CallClear c).
Proof.
  intros Hwf. rewrite step_clear. apply wf_clear_keys; [|apply keys_present|done].
  apply NoDup_fst_map_to_list.
Qed.

Lemma wf_flush h c : wf c → wf (flush h c).2.
Proof.
  intros Hwf. rewrite flush_eq.
  destruct (flush_called c !! h) as [[]|] eqn:Hh; [done| |done].
  pose proof Hwf as [Hsize Hdepth Hidle Hlogged].
  assert (Z.pred (_buffering c) = Z.of_nat (uncalled (<[h:=true]> (flush_called c)))) as Hpred.
  { rewrite Hdepth, (uncalled_insert _ h Hh). lia. }
  destruct (Z.eqb_spec (Z.pred (_buffering c)) 0) as [H0|H0]; simpl.
  - destruct (isEmpty (_buffer c)) eqn:Hempty; simpl.
    + split; simpl; [done..| |done]. intros _. by apply isEmpty_true.
    + split; simpl; [done..|]. intros name. by rewrite lookup_empty.
  - by split.
Qed.

Lemma wf_tick c : wf c → wf (step CallTick c).
Proof.
  intros Hwf. unfold step, exec. rewrite tick_eq.
  destruct (next_tick c) as [|h queue]; [done|].
  apply wf_flush. by destruct Hwf.
Qed.

Lemma set_nothing c : set_size (λ z, z) (set_items (λ m, m) c) = c.
Proof. by destruct c. Qed.

Lemma wf_step x c : wf c → wf (step x c).
Proof.
  intros Hwf. destruct x as [a b| |a|a b|a|a|a b|key d|key|name i|name| |h|].
  - rewrite step_add. cbv zeta.
    destruct (_isValidKey _); [|done].
    destruct (hasOwnProperty _ _) eqn:Hhas; [done|]. simpl.
    apply hasOwnProperty_false in Hhas.
    apply wf_mutation; [done| |].
    + by apply size_insert_absent.
    + by apply consistent_add.
  - by apply wf_clear.
  - rewrite step_remove. cbv zeta.
    destruct (_isValidKey _); [|done].
    destruct (hasOwnProperty _ _) eqn:Hhas; [|done]. simpl.
    apply hasOwnProperty_true in Hhas.
    apply wf_mutation; [done| |].
    + by apply size_delete_present.
    + by apply consistent_remove.
  - rewrite step_set. cbv zeta.
    destruct (_isValidKey _); [|done]. simpl.
    destruct (hasOwnProperty _ _) eqn:Hhas.
    + apply hasOwnProperty_true in Hhas.
      apply (wf_mutation c (λ z, z)); [done| |].
      * by apply size_insert_present.
      * by apply consistent_update.
    + apply hasOwnProperty_false in Hhas.
      apply wf_mutation; [done| |].
      * by apply size_insert_absent.
      * by apply consistent_add.
  - rewrite step_touch. cbv zeta.
    destruct (_isValidKey _); [|done]. simpl.
    destruct (_items c !! _) as [[]|] eqn:Hitem; try done.
    rewrite <- (set_nothing c) at 1.
    apply (wf_mutation c (λ z, z) (λ m, m)); [done| |].
    + apply Hwf.
    + apply consistent_touch; [done|]. by eexists.
  - rewrite step_unset, step_remove. cbv zeta.
    destruct (_isValidKey _); [|done].
    destruct (hasOwnProperty _ _) eqn:Hhas; [|done]. simpl.
    apply hasOwnProperty_true in Hhas.
    apply wf_mutation; [done| |].
    + by apply size_delete_present.
    + by apply consistent_remove.
  - rewrite step_update. cbv zeta.
    destruct (_isValidKey _); [|done].
    destruct (hasOwnProperty _ _) eqn:Hhas; [|done]. simpl.
    apply hasOwnProperty_true in Hhas.
    apply (wf_mutation c (λ z, z)); [done| |].
    + by apply size_insert_present.
    + by apply consistent_update.
  - by rewrite step_get.
  - done.
  - unfold step, exec. rewrite createIndex_eq.
    destruct (hasOwnProperty _ _); [done|]. by destruct Hwf.
  - unfold step, exec. rewrite deleteIndex_eq.
    destruct (_indexes c !! name); [|done]. by destruct Hwf.
  - rewrite step_bufferEvents. destruct Hwf as [Hsize Hdepth Hidle Hlogged].
    split; simpl; [done| | |done].
    + rewrite uncalled_snoc. lia.
    + lia.
  - by apply wf_flush.
  - by apply wf_tick.
Qed.

Lemma wf_run l c : wf c → wf (run l c).
Proof.
  revert c. induction l as [|x l IH]; intros c Hwf; [done|].
  rewrite run_cons. by apply IH, wf_step.
Qed.

Lemma wf_reachable l : wf (run l constructor).
Proof. apply wf_run, wf_constructor. Qed.

(* ================================================================= *)
(** ** Calls that leave one key alone *)






(* ================================================================= *)
(** ** The flush, case by case *)

Lemma flush_outermost h c :
  flush_called c !! h = Some false → _buffering c = 1%Z →
  flush h c =
  (Normal tt,
   if isEmpty (_buffer c) then close h c
   else set_buffer (λ _, ∅)
          (set_emitted (λ l, l ++ batch (_buffer c) (_items c)) (close h c))).
Proof.
  intros Hh Hdepth. rewrite flush_eq, Hh, Hdepth. simpl.
  by destruct (isEmpty (_buffer c)).
Qed.

Lemma flush_called_again h c :
  flush_called c !! h = Some true → flush h c = (Throw BufferAlreadyFlushed, c).
Proof. intros Hh. by rewrite flush_eq, Hh. Qed.

Lemma data_lookup a buffer items name :
  data a buffer items !! name =
  if decide (buffer !! name = Some a) then Some (read items name) else None.
Proof.
  unfold data. rewrite map_lookup_imap.
  destruct (buffer !! name) as [a'|]; simpl; repeat case_decide; congruence.
Qed.

Lemma data_lookup_Some a buffer items name v :
  data a buffer items !! name = Some v ↔
  buffer !! name = Some a ∧ v = read items name.
Proof.
  rewrite data_lookup. case_decide; split; try done.
  - intros [= <-]. done.
  - by intros [_ ->].
  - by intros [? _].
Qed.



(* ================================================================= *)
(** ** Closures are only created, and one that was called stays called *)

Lemma stays_called_refl c : stays_called c c.
Proof. by split. Qed.

Lemma stays_called_trans c1 c2 c3 :
  stays_called c1 c2 → stays_called c2 c3 → stays_called c1 c3.
Proof. intros [Hl12 H12] [Hl23 H23]. split; [lia|]. intros h Hh. by apply H23, H12. Qed.

Lemma stays_called_same c c' :
  flush_called c' = flush_called c → stays_called c c'.
Proof. intros Heq. unfold stays_called. by rewrite Heq. Qed.

Lemma stays_called_snoc c c' :
  flush_called c' = flush_called c ++ [false] → stays_called c c'.
Proof.
  intros Heq. unfold stays_called. rewrite Heq, length_app. split; [lia|].
  intros h Hh. by apply lookup_app_l_Some.
Qed.

Lemma stays_called_schedule c : stays_called c (schedule c).
Proof.
  unfold schedule. destruct (Z.eqb _ _); [|apply stays_called_refl].
  by apply stays_called_snoc.
Qed.

Lemma stays_called_mutation c f g a name :
  stays_called c (set_buffer (log a name) (schedule (set_size f (set_items g c)))).
Proof.
  apply (stays_called_trans _ (set_size f (set_items g c))).
  - by apply stays_called_same.
  - eapply stays_called_trans; [apply stays_called_schedule|].
    by apply stays_called_same.
Qed.

Lemma stays_called_close h c : stays_called c (close h c).
Proof.
  split; simpl; [by rewrite length_insert|].
  intros h' Hh'. destruct (decide (h = h')) as [<-|Hne].
  - apply list_lookup_insert_eq. by apply lookup_lt_Some in Hh'.
  - by rewrite list_lookup_insert_ne.
Qed.

Lemma stays_called_flush h c : stays_called c (flush h c).2.
Proof.
  rewrite flush_eq.
  destruct (flush_called c !! h) as [[]|] eqn:Hh; try apply stays_called_refl.
  pose proof (stays_called_close h c) as Hclose.
  destruct (negb _); [done|]. by destruct (isEmpty _).
Qed.

Lemma stays_called_clear_keys keys c : stays_called c (clear_keys keys c).
Proof.
  revert c. induction keys as [|key keys IH]; intros c; [apply stays_called_refl|].
  eapply stays_called_trans; [|apply IH]. apply stays_called_mutation.
Qed.

Lemma stays_called_step x c : stays_called c (step x c).
Proof.
  destruct x as [a b| |a|a b|a|a|a b|key d|key|name i|name| |h|].
  - rewrite step_add. cbv zeta.
    destruct (_ && _); [apply stays_called_mutation|apply stays_called_refl].
  - rewrite step_clear. apply stays_called_clear_keys.
  - rewrite step_remove. cbv zeta.
    destruct (_ && _); [apply stays_called_mutation|apply stays_called_refl].
  - rewrite step_set. cbv zeta.
    destruct (negb _); [apply stays_called_refl|].
    destruct (hasOwnProperty _ _); [|apply stays_called_mutation].
    apply (stays_called_mutation c (λ z, z)).
  - rewrite step_touch. cbv zeta.
    destruct (negb _); [apply stays_called_refl|].
    destruct (_items c !! _) as [[]|]; try apply stays_called_refl.
    rewrite <- (set_nothing c) at 2.
    apply (stays_called_mutation c (λ z, z) (λ m, m)).
  - rewrite step_unset, step_remove. cbv zeta.
    destruct (_ && _); [apply stays_called_mutation|apply stays_called_refl].
  - rewrite step_update. cbv zeta.
    destruct (_ && _); [|apply stays_called_refl].
    apply (stays_called_mutation c (λ z, z)).
  - rewrite step_get. apply stays_called_refl.
  - apply stays_called_refl.
  - unfold step, exec. rewrite createIndex_eq.
    destruct (hasOwnProperty _ _); by apply stays_called_same.
  - unfold step, exec. rewrite deleteIndex_eq.
    destruct (_indexes c !! name); by apply stays_called_same.
  - rewrite step_bufferEvents. by apply stays_called_snoc.
  - apply stays_called_flush.
  - unfold step, exec. rewrite tick_eq.
    destruct (next_tick c) as [|h queue]; [apply stays_called_refl|].
    eapply stays_called_trans; [|apply stays_called_flush].
    by apply stays_called_same.
Qed.

Lemma stays_called_run l c : stays_called c (run l c).
Proof.
  revert c. induction l as [|x l IH]; intros c; [apply stays_called_refl|].
  rewrite run_cons. eapply stays_called_trans; [apply stays_called_step|apply IH].
Qed.

(** A closure that exists is either called already or called by [flush]. *)
Lemma flush_marks_called h c :
  h < length (flush_called c) → flush_called (flush h c).2 !! h = Some true.
Proof.
  intros Hlt. destruct (lookup_lt_is_Some_2 _ _ Hlt) as [called Hh].
  rewrite flush_eq, Hh. destruct called; [done|].
  assert (flush_called (close h c) !! h = Some true) as Hclose.
  { simpl. by apply list_lookup_insert_eq. }
  destruct (negb _); [done|]. by destruct (isEmpty _).
Qed.

(* ================================================================= *)
(** ** Properties of the buffering protocol *)

(** C3: a flush that brings [_buffering] to 0 and finds a non-empty
    [_buffer] splits the logged keys by action into three disjoint maps,
    each key with its current value in [_items]; it emits one event per
    non-empty map (add, remove, update), then ['finish'] without payload,
    then empties [_buffer].  With an empty [_buffer] it emits nothing. *)
Theorem flush_emits_partition (c : collection) (h : nat) :
  flush_called c !! h = Some false →
  _buffering c = 1%Z →
  let c' := (flush h c).2 in
  let data_of a := data a (_buffer c) (_items c) in
  (flush h c).1 = Normal tt ∧
  _buffering c' = 0%Z ∧
  (∀ a name v, data_of a !! name = Some v ↔
     _buffer c !! name = Some a ∧ v = read (_items c) name) ∧
  data_of Add ##ₘ data_of Remove ∧ data_of Add ##ₘ data_of Update ∧
  data_of Remove ##ₘ data_of Update ∧
  (_buffer c ≠ ∅ →
   emitted c' =
     emitted c ++ event_of "add" (data_of Add) ++ event_of "remove" (data_of Remove) ++
     event_of "update" (data_of Update) ++ [Emit "finish" None] ∧
   _buffer c' = ∅) ∧
  (_buffer c = ∅ → emitted c' = emitted c ∧ _buffer c' = ∅).
Proof.
  intros Hh Hdepth c' data_of. subst c'. rewrite (flush_outermost h c Hh Hdepth).
  assert (∀ a a', a ≠ a' → data_of a ##ₘ data_of a') as Hdisjoint.
  { intros a a' Hne. apply map_disjoint_spec. intros name v v' Hv Hv'.
    apply data_lookup_Some in Hv as [Hv _], Hv' as [Hv' _]. congruence. }
  split; [done|]. split.
  { simpl. destruct (isEmpty _); simpl; lia. }
  split; [intros a name v; apply data_lookup_Some|].
  do 3 (split; [by apply Hdisjoint|]).
  split.
  - intros Hne. apply isEmpty_false in Hne. simpl. by rewrite Hne.
  - intros Heq. simpl. rewrite (proj2 (isEmpty_true _) Heq). by simpl.
Qed.

Lemma flush_emits_partition_witness :
  let c := run [CallAdd (VStr "a") ex_a1; CallRemove (VStr "b")] constructor in
  flush_called c !! 0 = Some false ∧ _buffering c = 1%Z ∧
  (flush 0 c).1 = Normal tt ∧ _buffering (flush 0 c).2 = 0%Z ∧
  emitted (flush 0 c).2 = [Emit "add" (Some {["a" := ex_a1]}); Emit "finish" None].
Proof.
  intros c.
  assert (flush_called c !! 0 = Some false) as Hh by reflexivity.
  assert (_buffering c = 1%Z) as Hdepth by reflexivity.
  destruct (flush_emits_partition c 0 Hh Hdepth) as (Hnormal & Hzero & _).
  split; [exact Hh|]. split; [exact Hdepth|]. split; [exact Hnormal|].
  split; [exact Hzero|]. vm_compute. reflexivity.
Defined.

(** C4: with two or more scopes open, calling the closure of one of them
    (the decrement leaves [_buffering] above 0) emits nothing and leaves
    [_buffer] as it is; an invocation that emits anything is one that
    brings [_buffering] to 0, and what it emits is the batch of the whole
    [_buffer], with everything the nested scopes logged. *)
Theorem inner_flush_is_silent (c : collection) (h : nat) :
  flush_called c !! h = Some false →
  let c' := (flush h c).2 in
  (flush h c).1 = Normal tt ∧
  ((1 < _buffering c)%Z →
   (0 < _buffering c')%Z ∧ emitted c' = emitted c ∧ _buffer c' = _buffer c ∧
   _items c' = _items c ∧ _size c' = _size c) ∧
  (emitted c' ≠ emitted c →
   _buffering c' = 0%Z ∧ _buffer c' = ∅ ∧
   emitted c' = emitted c ++ batch (_buffer c) (_items c)).
Proof.
  intros Hh c'. subst c'. rewrite flush_eq, Hh.
  destruct (Z.eqb_spec (Z.pred (_buffering c)) 0) as [H0|H0]; simpl.
  - destruct (isEmpty (_buffer c)); simpl.
    + split; [done|]. split; [lia|done].
    + split; [done|]. split; [lia|]. intros _. split; [lia|done].
  - split; [done|]. split; [|done]. intros Hdepth. split; [lia|done].
Qed.

Lemma inner_flush_is_silent_witness :
  let c := run [CallBufferEvents; CallAdd (VStr "a") ex_a1; CallBufferEvents;
                CallAdd (VStr "b") ex_b2] constructor in
  flush_called c !! 1 = Some false ∧
  (flush 1 c).1 = Normal tt ∧
  emitted (flush 1 c).2 = emitted c ∧ _buffer (flush 1 c).2 = _buffer c ∧
  emitted (flush 0 (flush 1 c).2).2 =
    [Emit "add" (Some (<["a" := ex_a1]> {["b" := ex_b2]})); Emit "finish" None].
Proof.
  intros c.
  assert (flush_called c !! 1 = Some false) as Hh by reflexivity.
  destruct (inner_flush_is_silent c 1 Hh) as (Hnormal & Hinner & _).
  destruct Hinner as (_ & Hemitted & Hbuffer & _); [vm_compute; reflexivity|].
  split; [exact Hh|]. split; [exact Hnormal|]. split; [exact Hemitted|].
  split; [exact Hbuffer|]. vm_compute. reflexivity.
Defined.

(** C5: once a closure returned by [bufferEvents] has been invoked, any
    further invocation of it throws [BufferAlreadyFlushed] and changes
    nothing: the state after the failed call is the state before it
    ([_buffering], [_buffer], [_items], the events emitted so far and
    everything else). *)
Theorem flush_twice_fails (c0 : collection) (l1 l2 : list call) :
  let h := length (flush_called c0) in
  let c := run l1 (bufferEvents c0).2 in
  let c1 := (flush h c).2 in
  let c2 := run l2 c1 in
  (bufferEvents c0).1 = Normal h ∧
  flush h c2 = (Throw BufferAlreadyFlushed, c2).
Proof.
  intros h c c1 c2. split; [done|].
  apply flush_called_again.
  apply (stays_called_run l2 c1).
  apply flush_marks_called.
  pose proof (stays_called_run l1 (bufferEvents c0).2) as [Hlen _].
  fold c in Hlen. rewrite bufferEvents_eq in Hlen. simpl in Hlen.
  rewrite length_app in Hlen. simpl in Hlen. subst h. lia.
Qed.

(* ================================================================= *)
(** ** One key inside an open scope *)



















(** *** The scope a mutation opens by itself *)















(** *** Taking a key out and putting it back; putting it in and taking it out *)









(* ================================================================= *)
(** ** Keys and queries *)

(** C7, as stated, fails: [1.5] is neither a string nor an integer, and
    [add(1.5, 'x')] returns and stores the item. *)
Lemma fractional_key_accepted :
  let key := VNum (NNonInt "1.5") in
  let outcome := add key (VStr "x") constructor in
  is_string key = false ∧ is_integer key = false ∧
  resolved_key key (VStr "x") = key ∧
  outcome.1 = Normal tt ∧
  _items outcome.2 !! "1.5" = Some (VStr "x") ∧
  _size outcome.2 = 1%Z.
Proof. vm_compute. repeat split; reflexivity. Qed.

(** C7, amended: a key passes validation exactly when it is a string or a
    number, integral or not; a mutation operation whose resolved key is
    neither throws [InvalidKey] from the state it was called in. *)
Theorem invalid_key_rejected (x : call) (a b : value) (c : collection) :
  mutation_args x = Some (a, b) →
  let key := resolved_key a b in
  (∀ key', _isValidKey key' = is_string key' || is_number key') ∧
  (∀ key', is_string key' || is_integer key' = true → _isValidKey key' = true) ∧
  (is_string key || is_number key = false →
   exec x c = (Throw (InvalidKey key), c)).
Proof.
  intros Hargs key.
  assert (∀ key', _isValidKey key' = is_string key' || is_number key') as Hvalid
    by by intros [].
  split; [done|]. split.
  { intros key' Hkey'. rewrite Hvalid. by destruct key' as [| | |[]| |]. }
  rewrite <- Hvalid. intros Hinvalid. subst key.
  destruct x; simplify_eq/=.
  - rewrite add_eq. cbv zeta. by rewrite Hinvalid.
  - rewrite remove_eq. cbv zeta. by rewrite Hinvalid.
  - rewrite set_eq. cbv zeta. by rewrite Hinvalid.
  - unfold ignore, bind. rewrite touch_method_eq. cbv zeta. by rewrite Hinvalid.
  - rewrite unset_eq. cbv zeta. by rewrite Hinvalid.
  - rewrite update_eq. cbv zeta. by rewrite Hinvalid.
Qed.

Lemma invalid_key_rejected_witness :
  let c := run [CallAdd (VStr "a") ex_a1] constructor in
  mutation_args (CallSet (VObject 5 VNull) VUndefined) = Some (VObject 5 VNull, VUndefined) ∧
  resolved_key (VObject 5 VNull) VUndefined = VNull ∧
  is_string VNull || is_number VNull = false ∧
  exec (CallSet (VObject 5 VNull) VUndefined) c = (Throw (InvalidKey VNull), c).
Proof.
  intros c.
  destruct (invalid_key_rejected (CallSet (VObject 5 VNull) VUndefined)
              (VObject 5 VNull) VUndefined c eq_refl) as (_ & _ & Hthrow).
  split; [reflexivity|]. split; [reflexivity|]. split; [reflexivity|].
  apply Hthrow. reflexivity.
Defined.

(** C8: for a key the store does not have, [get(key)] throws [NoSuchItem]
    and [get(key, d)] returns [d], whatever [d] is ([undefined] and [null]
    included); for a key the store has, [get] returns the stored value,
    with or without a default. *)
Theorem get_default_or_throw (c : collection) (key : value) :
  (has key c = (Normal false, c) →
   get key None c = (Throw (NoSuchItem key), c) ∧
   ∀ d, get key (Some d) c = (Normal d, c)) ∧
  (∀ v, _items c !! to_property_key key = Some v →
   has key c = (Normal true, c) ∧
   ∀ d, get key d c = (Normal v, c)).
Proof.
  split.
  - unfold has, gets. intros [= Hhas]. apply hasOwnProperty_false in Hhas.
    split; [|intros d]; by rewrite get_eq, Hhas.
  - intros v Hv. split.
    + unfold has, gets, hasOwnProperty. by rewrite Hv.
    + intros d. by rewrite get_eq, Hv.
Qed.

Lemma get_default_or_throw_witness :
  let c := run [CallAdd (VStr "a") ex_a1] constructor in
  has (VStr "missing") c = (Normal false, c) ∧
  get (VStr "missing") None c = (Throw (NoSuchItem (VStr "missing")), c) ∧
  get (VStr "missing") (Some VNull) c = (Normal VNull, c) ∧
  get (VStr "missing") (Some VUndefined) c = (Normal VUndefined, c) ∧
  _items c !! "a" = Some ex_a1 ∧
  get (VStr "a") None c = (Normal ex_a1, c) ∧
  get (VStr "a") (Some VNull) c = (Normal ex_a1, c).
Proof.
  intros c.
  assert (has (VStr "missing") c = (Normal false, c)) as Hmissing by reflexivity.
  assert (_items c !! to_property_key (VStr "a") = Some ex_a1) as Ha by reflexivity.
  destruct (get_default_or_throw c (VStr "missing")) as [Habsent _].
  destruct (get_default_or_throw c (VStr "a")) as [_ Hpresent].
  destruct (Habsent Hmissing) as [Hthrow Hdefault].
  destruct (Hpresent ex_a1 Ha) as [_ Hget].
  split; [exact Hmissing|]. split; [exact Hthrow|].
  split; [exact (Hdefault VNull)|]. split; [exact (Hdefault VUndefined)|].
  split; [exact Ha|]. split; [exact (Hget None)|]. exact (Hget (Some VNull)).
Defined.

(* ================================================================= *)
(** ** Size *)


(* ================================================================= *)
(** ** Indexes *)








(* ================================================================= *)
(** ** clear *)






(* ================================================================= *)
(** ** Further properties: errors *)

(** X1: a method that throws leaves the collection as it found it: items,
    size, log, depth, registry, scheduled flushes and emitted events are
    those of the state it was called in.  (Only the runtime's [tick] is
    left out: it takes the closure off the queue before calling it.) *)
Theorem throw_changes_nothing (x : call) (c : collection) (e : error) :
  x ≠ CallTick →
  (exec x c).1 = Throw e →
  (exec x c).2 = c.
Proof.
  intros Htick.
  destruct x as [a b| |a|a b|a|a|a b|key d|key|name i|name| |h|]; simpl; try done.
  - rewrite add_eq. cbv zeta. destruct (negb _); [done|].
    by destruct (hasOwnProperty _ _).
  - by rewrite clear_eq.
  - rewrite remove_eq. cbv zeta. destruct (negb _); [done|]. by destruct (negb _).
  - rewrite set_eq. cbv zeta. destruct (negb _); [done|].
    by destruct (hasOwnProperty _ _).
  - unfold ignore, bind. rewrite touch_method_eq. cbv zeta.
    destruct (negb _); [done|]. by destruct (_items c !! _) as [[]|].
  - rewrite unset_eq. cbv zeta. destruct (negb _); [done|].
    by destruct (hasOwnProperty _ _).
  - rewrite update_eq. cbv zeta. destruct (negb _); [done|]. by destruct (negb _).
  - unfold ignore, bind. rewrite get_eq. by destruct (_items c !! _), d.
  - rewrite createIndex_eq. by destruct (hasOwnProperty _ _).
  - rewrite deleteIndex_eq. by destruct (_indexes c !! name).
  - rewrite flush_eq. destruct (flush_called c !! h) as [[]|]; try done.
    destruct (negb _); [done|]. by destruct (isEmpty _).
Qed.

Lemma throw_changes_nothing_witness :
  let c := run ex_first_turn constructor in
  CallAdd (VStr "a") ex_a9 ≠ CallTick ∧
  (exec (CallAdd (VStr "a") ex_a9) c).1 = Throw (DuplicateItem (VStr "a")) ∧
  (exec (CallAdd (VStr "a") ex_a9) c).2 = c.
Proof.
  intros c.
  assert (CallAdd (VStr "a") ex_a9 ≠ CallTick) as Hne by done.
  assert ((exec (CallAdd (VStr "a") ex_a9) c).1 = Throw (DuplicateItem (VStr "a")))
    as Hthrow by (by vm_compute).
  split; [exact Hne|]. split; [exact Hthrow|].
  exact (throw_changes_nothing _ c _ Hne Hthrow).
Defined.

(** X2: which call throws which error, and in which state.  [InvalidKey]
    comes from a mutation operation whose resolved key is neither a number
    nor a string; [DuplicateItem] from [add] on a key the store has;
    [NoSuchItem] from [update], [remove], [touch] or a one-argument [get]
    on a key the store does not have; [IllegalTouch] from [touch] on a
    stored value that is not an object; [DuplicateIndex] from [createIndex]
    on a name in use; [NoSuchIndex] from [deleteIndex] on a name not in
    use; [BufferAlreadyFlushed] from a closure called again. *)
Theorem errors_by_kind (x : call) (c : collection) (e : error) :
  (exec x c).1 = Throw e →
  match e with
  | InvalidKey key =>
      ∃ a b, mutation_args x = Some (a, b) ∧ key = resolved_key a b ∧
             _isValidKey key = false
  | DuplicateItem key =>
      ∃ a b, x = CallAdd a b ∧ key = resolved_key a b ∧
             is_Some (_items c !! to_property_key key)
  | NoSuchItem key =>
      _items c !! to_property_key key = None ∧
      (x = CallGet key None ∨
       ∃ a b, key = resolved_key a b ∧
              (x = CallUpdate a b ∨
               b = VUndefined ∧ (x = CallRemove a ∨ x = CallTouch a)))
  | IllegalTouch v =>
      ∃ a, x = CallTouch a ∧ is_object v = false ∧
           _items c !! to_property_key (resolved_key a VUndefined) = Some v
  | DuplicateIndex name =>
      ∃ i, x = CallCreateIndex name i ∧ is_Some (_indexes c !! name)
  | NoSuchIndex name =>
      x = CallDeleteIndex name ∧ _indexes c !! name = None
  | BufferAlreadyFlushed =>
      ∃ h, flush_called c !! h = Some true ∧
           (x = CallFlush h ∨ x = CallTick ∧ head (next_tick c) = Some h)
  end.
Proof.
  destruct x as [a b| |a|a b|a|a|a b|key d|key|name i|name| |h|]; simpl; try done.
  - rewrite add_eq. cbv zeta.
    destruct (_isValidKey (resolved_key a b)) eqn:Hkey; simpl.
    + destruct (hasOwnProperty _ _) eqn:Hhas; [|done]. intros [= <-].
      exists a, b. by rewrite <- hasOwnProperty_true.
    + intros [= <-]. by exists a, b.
  - by rewrite clear_eq.
  - rewrite remove_eq. cbv zeta.
    destruct (_isValidKey (resolved_key a VUndefined)) eqn:Hkey; simpl.
    + destruct (hasOwnProperty _ _) eqn:Hhas; [done|]. simpl. intros [= <-].
      split; [by apply hasOwnProperty_false|]. right. exists a, VUndefined.
      split; [done|]. right. split; [done|]. by left.
    + intros [= <-]. by exists a, VUndefined.
  - rewrite set_eq. cbv zeta.
    destruct (_isValidKey (resolved_key a b)) eqn:Hkey; simpl.
    + by destruct (hasOwnProperty _ _).
    + intros [= <-]. by exists a, b.
  - unfold ignore, bind. rewrite touch_method_eq. cbv zeta.
    destruct (_isValidKey (resolved_key a VUndefined)) eqn:Hkey; simpl.
    + destruct (_items c !! _) as [v|] eqn:Hitem.
      * destruct v; try done; intros [= <-]; by exists a.
      * intros [= <-]. split; [done|]. right. exists a, VUndefined.
        split; [done|]. right. split; [done|]. by right.
    + intros [= <-]. by exists a, VUndefined.
  - rewrite unset_eq. cbv zeta.
    destruct (_isValidKey (resolved_key a VUndefined)) eqn:Hkey; simpl.
    + by destruct (hasOwnProperty _ _).
    + intros [= <-]. by exists a, VUndefined.
  - rewrite update_eq. cbv zeta.
    destruct (_isValidKey (resolved_key a b)) eqn:Hkey; simpl.
    + destruct (hasOwnProperty _ _) eqn:Hhas; [done|]. simpl. intros [= <-].
      split; [by apply hasOwnProperty_false|]. right. exists a, b.
      split; [done|]. by left.
    + intros [= <-]. by exists a, b.
  - unfold ignore, bind. rewrite get_eq.
    destruct (_items c !! _) eqn:Hitem; [done|]. destruct d; [done|].
    intros [= <-]. split; [done|]. by left.
  - rewrite createIndex_eq. destruct (hasOwnProperty _ _) eqn:Hhas; [|done].
    intros [= <-]. exists i. by rewrite <- hasOwnProperty_true.
  - rewrite deleteIndex_eq. destruct (_indexes c !! name) eqn:Hname; [done|].
    by intros [= <-].
  - rewrite flush_eq. destruct (flush_called c !! h) as [[]|] eqn:Hh; try done.
    + intros [= <-]. exists h. split; [done|]. by left.
    + destruct (negb _); [done|]. by destruct (isEmpty _).
  - rewrite tick_eq. destruct (next_tick c) as [|h queue] eqn:Hqueue; [done|].
    rewrite flush_eq. simpl.
    destruct (flush_called c !! h) as [[]|] eqn:Hh; try done.
    + intros [= <-]. exists h. split; [done|]. by right.
    + destruct (negb _); [done|]. by destruct (isEmpty _).
Qed.

Lemma errors_by_kind_witness :
  let c := step (CallAdd (VStr "n") (VNum (NInt 3))) constructor in
  (exec (CallTouch (VStr "n")) c).1 = Throw (IllegalTouch (VNum (NInt 3))) ∧
  ∃ a, CallTouch (VStr "n") = CallTouch a ∧ is_object (VNum (NInt 3)) = false ∧
       _items c !! to_property_key (resolved_key a VUndefined) = Some (VNum (NInt 3)).
Proof.
  intros c.
  assert ((exec (CallTouch (VStr "n")) c).1 = Throw (IllegalTouch (VNum (NInt 3))))
    as Hthrow by (by vm_compute).
  split; [exact Hthrow|].
  exact (errors_by_kind (CallTouch (VStr "n")) c _ Hthrow).
Defined.

(* ================================================================= *)
(** ** Further properties: the mutation operations *)

Lemma has_eq key c :
  has key c = (Normal (hasOwnProperty (_items c) (to_property_key key)), c).
Proof. done. Qed.

Lemma logged_items a name c :
  _items (set_buffer (log a name) (schedule c)) = _items c.
Proof. simpl. apply schedule_items. Qed.

Lemma logged_size a name c :
  _size (set_buffer (log a name) (schedule c)) = _size c.
Proof. simpl. apply schedule_size. Qed.

Lemma logged_buffer a name c :
  _buffer (set_buffer (log a name) (schedule c)) = log a name (_buffer c).
Proof. simpl. by rewrite schedule_buffer. Qed.

Lemma logged_emitted a name c :
  emitted (set_buffer (log a name) (schedule c)) = emitted c.
Proof. simpl. unfold schedule. by destruct (Z.eqb _ _). Qed.



(** X4: [remove] on a valid key the store has returns; afterwards [has]
    answers false, a one-argument [get] throws [NoSuchItem], [_size] is one
    less and the other keys are as they were. *)
Theorem remove_then_get (a : value) (c : collection) :
  let key := resolved_key a VUndefined in
  let name := to_property_key key in
  let c' := (remove a c).2 in
  _isValidKey key = true →
  is_Some (_items c !! name) →
  (remove a c).1 = Normal tt ∧
  has key c' = (Normal false, c') ∧
  get key None c' = (Throw (NoSuchItem key), c') ∧
  _size c' = (_size c - 1)%Z ∧
  (∀ name', name' ≠ name → _items c' !! name' = _items c !! name').
Proof.
  intros key name c' Hkey Hsome. subst c'. rewrite remove_eq. cbv zeta.
  fold key name. rewrite Hkey, (proj2 (hasOwnProperty_true _ _) Hsome). cbn [negb fst snd].
  set (c1 := set_size Z.pred _).
  assert (_items (set_buffer (log Remove name) (schedule c1)) = delete name (_items c))
    as Hitems by by rewrite logged_items.
  split; [done|]. split.
  { rewrite has_eq. fold name. unfold hasOwnProperty.
    by rewrite Hitems, lookup_delete_eq. }
  split.
  { rewrite get_eq. fold name. by rewrite Hitems, lookup_delete_eq. }
  split.
  { rewrite logged_size. subst c1. simpl. lia. }
  intros name' Hne. by rewrite Hitems, lookup_delete_ne.
Qed.

Lemma remove_then_get_witness :
  let c := run ex_first_turn constructor in
  let c' := (remove (VStr "b") c).2 in
  _isValidKey (resolved_key (VStr "b") VUndefined) = true ∧
  is_Some (_items c !! "b") ∧
  (remove (VStr "b") c).1 = Normal tt ∧
  get (VStr "b") None c' = (Throw (NoSuchItem (VStr "b")), c') ∧
  _size c' = 1%Z.
Proof.
  intros c c'.
  assert (is_Some (_items c !! to_property_key (resolved_key (VStr "b") VUndefined)))
    as Hsome by by eexists.
  destruct (remove_then_get (VStr "b") c eq_refl Hsome)
    as (Hnormal & _ & Hget & Hsize & _).
  split; [reflexivity|]. split; [exact Hsome|]. split; [exact Hnormal|].
  split; [exact Hget|]. exact Hsize.
Defined.






(** X6: [set] is [update] on a key the store has and [add] on a key it
    does not have: same outcome, same state, an invalid key included. *)
Theorem set_is_add_or_update (a b : value) (c : collection) :
  set a b c =
  if hasOwnProperty (_items c) (to_property_key (resolved_key a b))
  then update a b c else add a b c.
Proof.
  rewrite set_eq, update_eq, add_eq. cbv zeta.
  destruct (negb _); [by destruct (hasOwnProperty _ _)|].
  by destruct (hasOwnProperty _ _).
Qed.

(** X7: [unset] is [remove] on a key the store has, and does nothing on a
    valid key it does not have; on an invalid key both throw [InvalidKey]. *)
Theorem unset_is_remove_or_nothing (a : value) (c : collection) :
  let key := resolved_key a VUndefined in
  unset a c =
  if _isValidKey key && negb (hasOwnProperty (_items c) (to_property_key key))
  then (Normal tt, c) else remove a c.
Proof.
  intros key. subst key. rewrite unset_eq, remove_eq. cbv zeta.
  destruct (_isValidKey _); [|done]. by destruct (hasOwnProperty _ _).
Qed.

(** X8: [update] on a valid key the store has returns; afterwards [get]
    returns the new value; the set of keys, the size and the other items
    are as they were. *)
Theorem update_then_get (a b : value) (c : collection) :
  let key := resolved_key a b in
  let name := to_property_key key in
  let c' := (update a b c).2 in
  _isValidKey key = true →
  is_Some (_items c !! name) →
  (update a b c).1 = Normal tt ∧
  get key None c' = (Normal (resolved_value a b), c') ∧
  dom (_items c') = dom (_items c) ∧
  _size c' = _size c ∧
  (∀ name', name' ≠ name → _items c' !! name' = _items c !! name') ∧
  _buffer c' !! name = Some (if _buffer c !! name is Some a' then a' else Update).
Proof.
  intros key name c' Hkey Hsome. subst c'. rewrite update_eq. cbv zeta.
  fold key name. rewrite Hkey, (proj2 (hasOwnProperty_true _ _) Hsome). cbn [negb fst snd].
  set (c1 := set_items _ c).
  assert (_items (set_buffer (log Update name) (schedule c1)) = <[name := resolved_value a b]> (_items c))
    as Hitems by by rewrite logged_items.
  split; [done|]. split.
  { rewrite get_eq. fold name. by rewrite Hitems, lookup_insert_eq. }
  split.
  { rewrite Hitems, dom_insert_L. apply elem_of_dom in Hsome.
    apply subseteq_union_1_L. by apply singleton_subseteq_l. }
  split; [by rewrite logged_size|]. split.
  { intros name' Hne. by rewrite Hitems, lookup_insert_ne. }
  rewrite logged_buffer, log_lookup_eq. subst c1. simpl.
  by destruct (_buffer c !! name).
Qed.

Lemma update_then_get_witness :
  let c := run ex_first_turn constructor in
  let c' := (update (VStr "a") ex_a9 c).2 in
  _isValidKey (resolved_key (VStr "a") ex_a9) = true ∧
  is_Some (_items c !! "a") ∧
  (update (VStr "a") ex_a9 c).1 = Normal tt ∧
  get (VStr "a") None c' = (Normal ex_a9, c') ∧
  _size c' = 2%Z.
Proof.
  intros c c'.
  assert (is_Some (_items c !! to_property_key (resolved_key (VStr "a") ex_a9)))
    as Hsome by by eexists.
  destruct (update_then_get (VStr "a") ex_a9 c eq_refl Hsome)
    as (Hnormal & Hget & _ & Hsize & _).
  split; [reflexivity|]. split; [exact Hsome|]. split; [exact Hnormal|].
  split; [exact Hget|]. exact Hsize.
Defined.

(** X9: [touch] on a key whose stored value is an object returns that
    object and leaves the items and the size as they are; the key is logged
    as updated unless the log already had an entry for it, which it
    keeps. *)
Theorem touch_returns_item (a : value) (c : collection) (ref : positive) (id : value) :
  let key := resolved_key a VUndefined in
  let name := to_property_key key in
  let c' := (touch a c).2 in
  _isValidKey key = true →
  _items c !! name = Some (VObject ref id) →
  (touch a c).1 = Normal (VObject ref id) ∧
  _items c' = _items c ∧ _size c' = _size c ∧
  _buffer c' !! name = Some (if _buffer c !! name is Some a' then a' else Update) ∧
  (∀ name', name' ≠ name → _buffer c' !! name' = _buffer c !! name').
Proof.
  intros key name c' Hkey Hitem. subst c'. rewrite touch_method_eq. cbv zeta.
  fold key name. rewrite Hkey, Hitem. cbn [negb fst snd].
  split; [done|]. split; [apply logged_items|]. split; [apply logged_size|].
  rewrite logged_buffer. split.
  - rewrite log_lookup_eq. by destruct (_buffer c !! name).
  - intros name' Hne. by rewrite log_lookup_ne.
Qed.

Lemma touch_returns_item_witness :
  let c := run ex_first_turn constructor in
  _isValidKey (resolved_key (VStr "a") VUndefined) = true ∧
  _items c !! "a" = Some (VObject 1 VUndefined) ∧
  (touch (VStr "a") c).1 = Normal (VObject 1 VUndefined) ∧
  _buffer (touch (VStr "a") c).2 !! "a" = Some Update.
Proof.
  intros c.
  assert (_items c !! to_property_key (resolved_key (VStr "a") VUndefined) =
          Some (VObject 1 VUndefined)) as Hitem by reflexivity.
  destruct (touch_returns_item (VStr "a") c 1 VUndefined eq_refl Hitem)
    as (Hnormal & _ & _ & Hlog & _).
  split; [reflexivity|]. split; [exact Hitem|]. split; [exact Hnormal|]. exact Hlog.
Defined.

(* ================================================================= *)
(** ** Further properties: keys *)





(* ================================================================= *)
(** ** Further properties: the index registry *)

(** What the calls other than [createIndex] and [deleteIndex] leave
    alone. *)
Lemma registry_logged a name c c0 :
  _indexes c = _indexes c0 → _indexedItems c = _indexedItems c0 →
  index_calls c = index_calls c0 →
  _indexes (set_buffer (log a name) (schedule c)) = _indexes c0 ∧
  _indexedItems (set_buffer (log a name) (schedule c)) = _indexedItems c0 ∧
  index_calls (set_buffer (log a name) (schedule c)) = index_calls c0.
Proof. intros <- <- <-. simpl. unfold schedule. by destruct (Z.eqb _ _). Qed.

Lemma registry_clear_keys keys' c :
  _indexes (clear_keys keys' c) = _indexes c ∧
  _indexedItems (clear_keys keys' c) = _indexedItems c ∧
  index_calls (clear_keys keys' c) = index_calls c.
Proof.
  revert c. induction keys' as [|key keys' IH]; intros c; [done|].
  change (clear_keys (key :: keys') c) with (clear_keys keys' (clear_key key c)).
  destruct (IH (clear_key key c)) as (-> & -> & ->). unfold clear_key.
  by apply registry_logged.
Qed.

Lemma registry_flush h c :
  _indexes (flush h c).2 = _indexes c ∧
  _indexedItems (flush h c).2 = _indexedItems c ∧
  index_calls (flush h c).2 = index_calls c.
Proof.
  rewrite flush_eq. destruct (flush_called c !! h) as [[]|]; try done.
  destruct (negb _); [done|]. by destruct (isEmpty _).
Qed.

Lemma registry_step x c :
  (∀ name i, x ≠ CallCreateIndex name i) → (∀ name, x ≠ CallDeleteIndex name) →
  _indexes (step x c) = _indexes c ∧
  _indexedItems (step x c) = _indexedItems c ∧
  index_calls (step x c) = index_calls c.
Proof.
  intros Hcreate Hdelete.
  destruct x as [a b| |a|a b|a|a|a b|key d|key|name i|name| |h|]; try done.
  - rewrite step_add. cbv zeta. destruct (_ && _); [by apply registry_logged|done].
  - rewrite step_clear. apply registry_clear_keys.
  - rewrite step_remove. cbv zeta. destruct (_ && _); [by apply registry_logged|done].
  - rewrite step_set. cbv zeta. destruct (negb _); [done|].
    destruct (hasOwnProperty _ _); by apply registry_logged.
  - rewrite step_touch. cbv zeta. destruct (negb _); [done|].
    destruct (_items c !! _) as [[]|]; try done. by apply registry_logged.
  - rewrite step_unset, step_remove. cbv zeta.
    destruct (_ && _); [by apply registry_logged|done].
  - rewrite step_update. cbv zeta. destruct (_ && _); [by apply registry_logged|done].
  - by rewrite step_get.
  - by destruct (Hcreate name i).
  - by destruct (Hdelete name).
  - apply registry_flush.
  - unfold step, exec. rewrite tick_eq.
    destruct (next_tick c) as [|h queue]; [done|].
    apply (registry_flush h (set_next_tick (λ _, queue) c)).
Qed.

Lemma registry_reachable (l : list call) :
  let c := run l constructor in
  _indexedItems c = index_items <$> _indexes c ∧
  length (filter (λ x, is_attach x = true) (index_calls c)) =
  length (filter (λ x, is_attach x = false) (index_calls c)) + size (_indexes c).
Proof.
  intros c. subst c. induction l as [|x l IH] using rev_ind.
  { split; [|done]. change (∅ = index_items <$> (∅ : gmap string index)).
    by rewrite fmap_empty. }
  rewrite run_app, run_cons. simpl (run [] _).
  set (c := run l constructor) in *. destruct IH as [Hviews Hcalls].
  destruct x as [a b| |a|a b|a|a|a b|key d|key|name i|name| |h|];
    try (match goal with
         | |- context [step ?x c] =>
             destruct (registry_step x c) as (-> & -> & ->); [done|done|by split]
         end).
  - unfold step, exec. rewrite createIndex_eq.
    destruct (hasOwnProperty (_indexes c) name) eqn:Hhas; [done|]. simpl.
    apply hasOwnProperty_false in Hhas. split.
    + by rewrite fmap_insert, Hviews.
    + rewrite !filter_app, !length_app, map_size_insert_None by done.
      rewrite !filter_cons, !filter_nil. simpl. lia.
  - unfold step, exec. rewrite deleteIndex_eq.
    destruct (_indexes c !! name) as [i|] eqn:Hname; [|done]. simpl. split.
    + by rewrite fmap_delete, Hviews.
    + rewrite !filter_app, !length_app, map_size_delete_Some by by eexists.
      rewrite !filter_cons, !filter_nil. simpl.
      assert (size (_indexes c) ≠ 0); [|lia].
      apply map_size_non_empty_iff. intros Hempty.
      by rewrite Hempty, lookup_empty in Hname.
Qed.

(** X12: in every reachable state the exposed views are those of the
    registered indexes ([_indexedItems[name]] is [_indexes[name].items],
    for the same names), and the indexes attached and not yet detached are
    the registered ones: the calls of [_attachCollection] outnumber those
    of [_detachCollection] by the size of the registry. *)
Theorem registry_invariant (l : list call) :
  let c := run l constructor in
  _indexedItems c = index_items <$> _indexes c ∧
  length (filter (λ x, is_attach x = true) (index_calls c)) =
  length (filter (λ x, is_attach x = false) (index_calls c)) + size (_indexes c).
Proof. apply registry_reachable. Qed.

(** X13: on a reachable store, registering an index under a free name and
    deleting it again gives back the store as it was, but for the two
    calls made into the index: [_attachCollection], then
    [_detachCollection].  Neither call touches the items, the size, the
    log or the events. *)
Theorem create_then_delete_index (l : list call) (name : string) (i : index) :
  let c := run l constructor in
  _indexes c !! name = None →
  (createIndex name i c).1 = Normal tt ∧
  (deleteIndex name (createIndex name i c).2).1 = Normal tt ∧
  run [CallCreateIndex name i; CallDeleteIndex name] c =
  set_index_calls (λ calls, calls ++ [AttachCollection i; DetachCollection i]) c.
Proof.
  intros c Hfree.
  assert (_indexedItems c !! name = None) as Hview.
  { destruct (registry_reachable l) as [Hviews _]. fold c in Hviews. rewrite Hviews.
    by rewrite lookup_fmap, Hfree. }
  rewrite !run_cons. simpl (run [] _). unfold step, exec.
  rewrite createIndex_eq, (proj2 (hasOwnProperty_false _ _) Hfree). cbn [fst snd].
  rewrite deleteIndex_eq. simpl. rewrite lookup_insert_eq. simpl.
  split; [done|]. split; [done|].
  clearbody c. destruct c. simpl in *.
  unfold set_index_calls, set_indexedItems, set_indexes. simpl.
  rewrite !delete_insert_eq, !delete_id by done. by rewrite <- app_assoc.
Qed.

Lemma create_then_delete_index_witness :
  let c := run ex_first_turn constructor in
  _indexes c !! "byId" = None ∧
  (createIndex "byId" ex_index c).1 = Normal tt ∧
  run [CallCreateIndex "byId" ex_index; CallDeleteIndex "byId"] c =
  set_index_calls
    (λ calls, calls ++ [AttachCollection ex_index; DetachCollection ex_index]) c.
Proof.
  intros c.
  assert (_indexes c !! "byId" = None) as Hfree by reflexivity.
  destruct (create_then_delete_index ex_first_turn "byId" ex_index Hfree)
    as (Hcreate & _ & Hround).
  split; [exact Hfree|]. split; [exact Hcreate|]. exact Hround.
Defined.

(* ================================================================= *)
(** ** Further properties: the buffering protocol *)

(** X14: in every reachable state [_buffering] is the number of closures
    [bufferEvents] created that were not called yet, so it is never
    negative; and while it is 0 the pending log is empty. *)
Theorem buffering_counts_closures (l : list call) :
  let c := run l constructor in
  _buffering c = Z.of_nat (uncalled (flush_called c)) ∧
  ((0 < _buffering c)%Z ∨ _buffering c = 0%Z ∧ _buffer c = ∅).
Proof.
  intros c. pose proof (wf_reachable l) as [_ Hdepth Hidle _]. fold c in Hdepth, Hidle.
  split; [done|].
  destruct (decide (_buffering c = 0%Z)) as [H0|H0]; [right; auto|left; lia].
Qed.


Lemma emitted_clear_keys keys' c : emitted (clear_keys keys' c) = emitted c.
Proof.
  revert c. induction keys' as [|key keys' IH]; intros c; [done|].
  change (clear_keys (key :: keys') c) with (clear_keys keys' (clear_key key c)).
  rewrite IH. unfold clear_key. by rewrite logged_emitted.
Qed.

Lemma emitted_step x c :
  is_flush_call x = false → emitted (step x c) = emitted c.
Proof.
  intros Hx. destruct x as [a b| |a|a b|a|a|a b|key d|key|name i|name| |h|]; try done.
  - rewrite step_add. cbv zeta. destruct (_ && _); [|done]. by rewrite logged_emitted.
  - rewrite step_clear. apply emitted_clear_keys.
  - rewrite step_remove. cbv zeta. destruct (_ && _); [|done]. by rewrite logged_emitted.
  - rewrite step_set. cbv zeta. destruct (negb _); [done|].
    destruct (hasOwnProperty _ _); by rewrite logged_emitted.
  - rewrite step_touch. cbv zeta. destruct (negb _); [done|].
    destruct (_items c !! _) as [[]|]; try done. by rewrite logged_emitted.
  - rewrite step_unset, step_remove. cbv zeta. destruct (_ && _); [|done].
    by rewrite logged_emitted.
  - rewrite step_update. cbv zeta. destruct (_ && _); [|done]. by rewrite logged_emitted.
  - by rewrite step_get.
  - unfold step, exec. rewrite createIndex_eq. by destruct (hasOwnProperty _ _).
  - unfold step, exec. rewrite deleteIndex_eq. by destruct (_indexes c !! name).
Qed.

(** What a flush adds to the events: nothing, or the batch of the log it
    finds. *)
Lemma emitted_flush h c :
  emitted (flush h c).2 = emitted c ∨
  _buffer c ≠ ∅ ∧ emitted (flush h c).2 = emitted c ++ batch (_buffer c) (_items c).
Proof.
  rewrite flush_eq. destruct (flush_called c !! h) as [[]|]; try by left.
  destruct (negb _); [by left|].
  destruct (isEmpty (_buffer c)) eqn:Hempty; [by left|].
  right. split; [by apply isEmpty_false|done].
Qed.

Lemma emitted_tick c :
  emitted (step CallTick c) = emitted c ∨
  _buffer c ≠ ∅ ∧ emitted (step CallTick c) = emitted c ++ batch (_buffer c) (_items c).
Proof.
  unfold step, exec. rewrite tick_eq. destruct (next_tick c) as [|h queue]; [by left|].
  apply (emitted_flush h (set_next_tick (λ _, queue) c)).
Qed.



(** X17: events are emitted by a flush only, called by hand or by the
    runtime at the end of the turn: any other call, the mutation
    operations included, leaves the emitted events as they are; and a
    flush only adds to them, nothing or one whole batch. *)
Theorem only_flush_emits (x : call) (c : collection) :
  (is_flush_call x = true ∨ emitted (step x c) = emitted c) ∧
  (emitted (step x c) = emitted c ∨
   _buffer c ≠ ∅ ∧ emitted (step x c) = emitted c ++ batch (_buffer c) (_items c)).
Proof.
  destruct (is_flush_call x) eqn:Hx.
  - split; [by left|]. destruct x; try done.
    + apply emitted_flush.
    + apply emitted_tick.
  - rewrite (emitted_step x c Hx). split; [by right|by left].
Qed.

Lemma turn_refl c : turn c c.
Proof. by left. Qed.

Lemma turn_trans c1 c2 c3 : turn c1 c2 → turn c2 c3 → turn c1 c3.
Proof.
  intros [(H1 & H2 & H3)|(H0 & H1 & H2 & H3)] [(K1 & K2 & K3)|(K0 & K1 & K2 & K3)].
  - left. by rewrite K1, K2, K3.
  - right. by rewrite K1, K2, K3, <- H1, H2, H3.
  - right. by rewrite K1, K2, K3.
  - rewrite H1 in K0. done.
Qed.

Lemma turn_logged a name c c0 :
  _buffering c = _buffering c0 → flush_called c = flush_called c0 →
  next_tick c = next_tick c0 →
  turn c0 (set_buffer (log a name) (schedule c)).
Proof.
  intros H1 H2 H3. unfold schedule.
  destruct (Z.eqb_spec (_buffering c) 0) as [H0|H0].
  - right. simpl. rewrite <- H1, H0, H2, H3. done.
  - left. by simpl.
Qed.

Lemma turn_clear_keys keys' c : turn c (clear_keys keys' c).
Proof.
  revert c. induction keys' as [|key keys' IH]; intros c; [apply turn_refl|].
  change (clear_keys (key :: keys') c) with (clear_keys keys' (clear_key key c)).
  eapply turn_trans; [|apply IH]. by apply turn_logged.
Qed.

Lemma turn_step x c : is_scope_call x = false → turn c (step x c).
Proof.
  intros Hx. destruct x as [a b| |a|a b|a|a|a b|key d|key|name i|name| |h|];
    try done; try apply turn_refl.
  - rewrite step_add. cbv zeta. destruct (_ && _); [|apply turn_refl].
    by apply turn_logged.
  - rewrite step_clear. apply turn_clear_keys.
  - rewrite step_remove. cbv zeta. destruct (_ && _); [|apply turn_refl].
    by apply turn_logged.
  - rewrite step_set. cbv zeta. destruct (negb _); [apply turn_refl|].
    destruct (hasOwnProperty _ _); by apply turn_logged.
  - rewrite step_touch. cbv zeta. destruct (negb _); [apply turn_refl|].
    destruct (_items c !! _) as [[]|]; try apply turn_refl. by apply turn_logged.
  - rewrite step_unset, step_remove. cbv zeta. destruct (_ && _); [|apply turn_refl].
    by apply turn_logged.
  - rewrite step_update. cbv zeta. destruct (_ && _); [|apply turn_refl].
    by apply turn_logged.
  - rewrite step_get. apply turn_refl.
  - unfold step, exec. rewrite createIndex_eq. destruct (hasOwnProperty _ _); by left.
  - unfold step, exec. rewrite deleteIndex_eq. destruct (_indexes c !! name); by left.
Qed.

Lemma turn_run l c :
  forallb (λ x, negb (is_scope_call x)) l = true → turn c (run l c).
Proof.
  revert c. induction l as [|x l IH]; intros c Hl; [apply turn_refl|].
  simpl in Hl. apply andb_true_iff in Hl as [Hx Hl]. apply negb_true_iff in Hx.
  rewrite run_cons. eapply turn_trans; [by apply turn_step|by apply IH].
Qed.

Lemma emitted_run l c :
  forallb (λ x, negb (is_flush_call x)) l = true → emitted (run l c) = emitted c.
Proof.
  revert c. induction l as [|x l IH]; intros c Hl; [done|].
  simpl in Hl. apply andb_true_iff in Hl as [Hx Hl]. apply negb_true_iff in Hx.
  by rewrite run_cons, IH, emitted_step.
Qed.

(** X18: on a reachable store with no scope open and nothing queued, the
    calls of one turn (mutations, queries, index operations; no
    [bufferEvents()], no flush) emit nothing and open at most one scope,
    whatever the number of mutations: either nothing is logged and nothing
    is queued, or exactly one closure is queued with [process.nextTick].
    When the runtime then calls it, it emits the one batch of the whole
    log, and the store is left with no scope open, an empty log and an
    empty queue. *)
Theorem one_flush_per_turn (l0 l : list call) :
  let c0 := run l0 constructor in
  let c := run l c0 in
  _buffering c0 = 0%Z → next_tick c0 = [] →
  forallb (λ x, negb (is_scope_call x)) l = true →
  emitted c = emitted c0 ∧
  ((_buffering c = 0%Z ∧ _buffer c = ∅ ∧ next_tick c = []) ∨
   (_buffering c = 1%Z ∧ next_tick c = [length (flush_called c0)] ∧
    let c' := step CallTick c in
    _buffering c' = 0%Z ∧ _buffer c' = ∅ ∧ next_tick c' = [] ∧
    _items c' = _items c ∧
    emitted c' =
    emitted c0 ++ (if isEmpty (_buffer c) then [] else batch (_buffer c) (_items c)))).
Proof.
  intros c0 c Hidle Hqueue Hl.
  assert (wf c) as Hwf by apply wf_run, wf_reachable.
  assert (emitted c = emitted c0) as Hemitted.
  { apply emitted_run. clear -Hl. induction l as [|x l IH]; [done|].
    simpl in *. apply andb_true_iff in Hl as [Hx Hl]. rewrite (IH Hl), andb_true_r.
    by destruct x. }
  split; [done|].
  destruct (turn_run l c0 Hl) as [(H1 & H2 & H3)|(_ & H1 & H2 & H3)]; fold c in H1, H2, H3.
  - left. rewrite H1, H3. split; [done|]. split; [|done].
    apply wf_idle; [done|]. by rewrite H1.
  - right. rewrite Hqueue in H3. simpl in H3. split; [done|]. split; [done|].
    cbv zeta. unfold step, exec. rewrite tick_eq, H3, flush_eq.
    change (flush_called (set_next_tick _ c)) with (flush_called c).
    change (_buffering (set_next_tick _ c)) with (_buffering c).
    change (_buffer (set_next_tick _ c)) with (_buffer c).
    change (_items (set_next_tick _ c)) with (_items c).
    rewrite H2, lookup_app_r, Nat.sub_diag by done. cbn [lookup list_lookup].
    rewrite H1. cbn [Z.pred Z.eqb negb Z.add Z.pos_sub].
    destruct (isEmpty (_buffer c)) eqn:Hempty.
    + simpl. rewrite H1, app_nil_r. repeat split; try done.
      by apply isEmpty_true.
    + simpl. rewrite H1, Hemitted. by repeat split.
Qed.

Lemma one_flush_per_turn_witness :
  let c := run [CallAdd (VStr "a") (VNum (NInt 1)); CallSet (VStr "b") (VNum (NInt 2))]
             constructor in
  emitted c = [] ∧
  ((_buffering c = 0%Z ∧ _buffer c = ∅ ∧ next_tick c = []) ∨
   (_buffering c = 1%Z ∧ next_tick c = [0] ∧
    let c' := step CallTick c in
    _buffering c' = 0%Z ∧ _buffer c' = ∅ ∧ next_tick c' = [] ∧
    _items c' = _items c ∧
    emitted c' =
    [] ++ (if isEmpty (_buffer c) then [] else batch (_buffer c) (_items c)))).
Proof.
  exact (one_flush_per_turn []
           [CallAdd (VStr "a") (VNum (NInt 1)); CallSet (VStr "b") (VNum (NInt 2))]
           eq_refl eq_refl eq_refl).
Defined.

(* ================================================================= *)
(** ** Further properties: what the log records *)












(* ================================================================= *)
(** ** Further properties: iteration and clear *)






